(** * Overlay stack and toast queue of the component library

    A shallow embedding of two small list managers:

    - [useOverlayStack] (the hook returning [openOverlay], [closeOverlay],
      [getLastOpened], [getThisOverlayAndDescendants] and [resetStack]),
    - [OverlayToaster] (the component methods [show], [dismiss], [clear],
      [getToasts], [validateProps] and their private helpers).

    JavaScript arrays are lists, [findIndex] returns an integer with -1 for
    "not found", an optional property is an [option], and a mutable object is
    a record threaded through every call. *)

From Stdlib Require Import String Ascii DecimalString DecimalNat.
From Stdlib Require Import List Bool ZArith QArith Lia.
Import ListNotations.

Local Open Scope string_scope.
Local Open Scope Z_scope.
Local Open Scope list_scope.

(** ** Array primitives *)

Module JsArray.

Section Primitives.
Context {A : Type}.

(** [Array.prototype.findIndex]: index of the first element accepted by
    [p], or -1. *)
Fixpoint findIndexFrom (p : A -> bool) (l : list A) (i : Z) : Z :=
  match l with
  | [] => -1
  | x :: r => if p x then i else findIndexFrom p r (i + 1)
  end.

Definition findIndex (p : A -> bool) (l : list A) : Z := findIndexFrom p l 0.

(** A relative index of [slice], [splice] and [at]: negative values count
    from the end and everything is clamped to the array. *)
Definition relativeStart (l : list A) (start : Z) : nat :=
  if start <? 0
  then Z.to_nat (Z.max (Z.of_nat (length l) + start) 0)
  else Nat.min (Z.to_nat start) (length l).

(** [l.slice(start)] *)
Definition slice (l : list A) (start : Z) : list A :=
  skipn (relativeStart l start) l.

(** [l.splice(start, 1)]: the array that is left. *)
Definition splice1 (l : list A) (start : Z) : list A :=
  let i := relativeStart l start in
  firstn i l ++ skipn (S i) l.

(** [l.at(i)] *)
Definition at_ (l : list A) (i : Z) : option A :=
  let j := if i <? 0 then Z.of_nat (length l) + i else i in
  if j <? 0 then None else nth_error l (Z.to_nat j).

(** [l[i]] for an integer [i]: [undefined] out of range. *)
Definition index (l : list A) (i : Z) : option A :=
  if i <? 0 then None else nth_error l (Z.to_nat i).

(** [l.indexOf(x)]: the index of the first element strictly equal to [x],
    or -1; [eqb] is [===] on the elements. *)
Definition indexOf (eqb : A -> A -> bool) (l : list A) (x : A) : Z :=
  findIndex (fun y => eqb y x) l.

End Primitives.

End JsArray.

(** ** The overlay stack *)

Module OverlayStack.
Import JsArray.

(** The hook as it behaves under an overlays provider ([hasProvider]); the
    legacy stack it falls back to otherwise is another module. *)

(** The part of an overlay's props the stack reads.  Both are optional
    booleans tested for truthiness, so a missing one reads as [false]. *)
Record OverlayProps := mkOverlayProps {
  usePortal : bool;
  hasBackdrop : bool
}.

Record OverlayInstance := mkOverlay {
  id : string;
  props : OverlayProps
}.

(** What the hook acts on: [stack.current], and whether the class
    [Classes.OVERLAY_OPEN] is in [document.body.classList] (the scroll
    lock). *)
Record Env := mkEnv {
  stack : list OverlayInstance;
  overlayOpen : bool
}.

Definition emptyEnv : Env := mkEnv [] false.

(** [o.props.usePortal && o.props.hasBackdrop] *)
Definition locksScroll (o : OverlayInstance) : bool :=
  usePortal (props o) && hasBackdrop (props o).

(** [o => o.id === overlay.id] *)
Definition sameId (overlay o : OverlayInstance) : bool :=
  String.eqb (id o) (id overlay).

Definition getLastOpened (e : Env) : option OverlayInstance * Env :=
  (at_ (stack e) (-1), e).

Definition getThisOverlayAndDescendants (overlay : OverlayInstance) (e : Env)
  : list OverlayInstance * Env :=
  let index := findIndex (sameId overlay) (stack e) in
  if index =? -1 then ([], e) else (slice (stack e) index, e).

Definition resetStack (e : Env) : Env :=
  mkEnv [] (overlayOpen e).

Definition openOverlay (overlay : OverlayInstance) (e : Env) : Env :=
  let stack1 := stack e ++ [overlay] in
  if locksScroll overlay
  then mkEnv stack1 true
  else mkEnv stack1 (overlayOpen e).

Definition closeOverlay (overlay : OverlayInstance) (e : Env) : Env :=
  let otherOverlaysWithBackdrop :=
    filter (fun o => locksScroll o && negb (String.eqb (id o) (id overlay)))
           (stack e) in
  let index := findIndex (sameId overlay) (stack e) in
  let stack1 := if index >? -1 then splice1 (stack e) index else stack e in
  if Nat.eqb (length otherOverlaysWithBackdrop) 0
  then mkEnv stack1 false
  else mkEnv stack1 (overlayOpen e).

(** The calls a client of the hook can make. *)
Inductive Call :=
| OpenOverlay (overlay : OverlayInstance)
| CloseOverlay (overlay : OverlayInstance)
| GetLastOpened
| GetThisOverlayAndDescendants (overlay : OverlayInstance)
| ResetStack.

Definition step (c : Call) (e : Env) : Env :=
  match c with
  | OpenOverlay o => openOverlay o e
  | CloseOverlay o => closeOverlay o e
  | GetLastOpened => snd (getLastOpened e)
  | GetThisOverlayAndDescendants o => snd (getThisOverlayAndDescendants o e)
  | ResetStack => resetStack e
  end.

Fixpoint run (calls : list Call) (e : Env) : Env :=
  match calls with
  | [] => e
  | c :: rest => run rest (step c e)
  end.

(** Conditions on a call sequence, checked against the state each call
    meets. *)

(** Every [openOverlay] gets an overlay whose id is not on the stack. *)
Fixpoint opensFresh (calls : list Call) (e : Env) : bool :=
  match calls with
  | [] => true
  | c :: rest =>
      match c with
      | OpenOverlay o => negb (existsb (sameId o) (stack e))
      | _ => true
      end && opensFresh rest (step c e)
  end.

(** Every [resetStack] comes when no open overlay holds the scroll lock (in
    particular "after all overlays are closed", as its documentation asks). *)
Fixpoint resetsWhenUnlocked (calls : list Call) (e : Env) : bool :=
  match calls with
  | [] => true
  | c :: rest =>
      match c with
      | ResetStack => negb (existsb locksScroll (stack e))
      | _ => true
      end && resetsWhenUnlocked rest (step c e)
  end.

(** The properties of the environment the hook is meant to keep. *)

(** No two entries of the stack have the same id. *)
Definition uniqueIds (e : Env) : Prop := NoDup (map id (stack e)).

(** The scroll lock is on exactly when an open overlay has both [usePortal]
    and [hasBackdrop]. *)
Definition scrollLockMatches (e : Env) : Prop :=
  overlayOpen e = true <->
  exists o, In o (stack e) /\
            usePortal (props o) = true /\ hasBackdrop (props o) = true.

(** The overlays that were opened and not closed since, in the order they
    were opened: what the stack is meant to hold after [calls], starting
    from [open]. *)
Fixpoint stillOpen (calls : list Call) (open : list OverlayInstance)
  : list OverlayInstance :=
  match calls with
  | [] => open
  | OpenOverlay o :: rest => stillOpen rest (open ++ [o])
  | CloseOverlay o :: rest =>
      stillOpen rest
        (filter (fun x => negb (String.eqb (id x) (id o))) open)
  | ResetStack :: rest => stillOpen rest []
  | _ :: rest => stillOpen rest open
  end.

End OverlayStack.

(** ** The toast queue *)

Module Toaster.
Import JsArray.

(** An [onDismiss] function object.  What it does lies outside the component;
    it is named by a handle so that its invocations can be observed, the way
    a test spy records them. *)
Definition Callback : Type := nat.

(** One observed invocation [f(timeoutExpired)]. *)
Definition Invocation : Type := (Callback * bool)%type.

(** What a caller hands to [show]: the display props (here the message) and
    the optional dismissal callback. *)
Record ToastProps := mkToastProps {
  message : string;
  onDismiss : option Callback
}.

(** [ToastOptions = ToastProps & { key: string }] *)
Record ToastOptions := mkToast {
  key : string;
  toastProps : ToastProps
}.

(** The props the queue reads.  [maxToasts] is an optional number: it is
    meant as a count, but any number can be passed, also a fraction, so it
    is a rational here (not-a-number and the infinities are left out). *)
Record OverlayToasterProps := mkProps {
  maxToasts : option Q
}.

(** [x < y] and [x === y] on numbers. *)
Definition ltNumber (x y : Q) : bool := negb (Qle_bool y x).

Definition eqNumber (x y : Q) : bool := Qeq_bool x y.

(** [l.length] as a number. *)
Definition lengthNumber {A} (l : list A) : Q := inject_Z (Z.of_nat (length l)).

Inductive Error :=
| TOASTER_MAX_TOASTS_INVALID
| TypeError.

Inductive Result (A : Type) :=
| Ok (a : A)
| Throw (e : Error).
Arguments Ok {A} a.
Arguments Throw {A} e.

(** A component instance together with what its callbacks have been asked so
    far: [this.props], [this.state.toasts] (newest first), the private
    counter [this.toastId], and the invocations of [onDismiss] callbacks in
    the order they happened.  State updates take effect at once, call after
    call. *)
Record Toaster := mkToaster {
  props : OverlayToasterProps;
  toasts : list ToastOptions;
  toastId : nat;
  invoked : list Invocation
}.

(** Methods: state passing with exceptions. *)
Definition M (A : Type) : Type := Toaster -> Result (A * Toaster).

Definition ret {A} (a : A) : M A := fun s => Ok (a, s).

Definition bind {A B} (m : M A) (k : A -> M B) : M B :=
  fun s => match m s with
           | Ok (a, s1) => k a s1
           | Throw e => Throw e
           end.

Notation "x <- m ;; k" := (bind m (fun x => k))
  (at level 61, m at next level, right associativity).
Notation "m ;;; k" := (bind m (fun _ => k))
  (at level 61, right associativity).

Definition setToasts (ts : list ToastOptions) : M unit :=
  fun s => Ok (tt, mkToaster (props s) ts (toastId s) (invoked s)).

(** [cb?.(timeoutExpired)] *)
Definition invoke (cb : option Callback) (timeoutExpired : bool)
  (log : list Invocation) : list Invocation :=
  match cb with
  | Some f => log ++ [(f, timeoutExpired)]
  | None => log
  end.

(** The number of a template literal, [`${n}`], for a counter: its decimal
    digits. *)
Definition numberToString (n : nat) : string :=
  NilEmpty.string_of_uint (Nat.to_uint n).

(** [`toast-${this.toastId}`] *)
Definition autoKey (n : nat) : string :=
  String.append "toast-" (numberToString n).

(** The [filter] of [dismiss]: its predicate calls [onDismiss] on the toasts
    it drops, so the log is threaded through the traversal. *)
Fixpoint filterDismiss (k : string) (timeoutExpired : bool)
  (ts : list ToastOptions) (log : list Invocation)
  : list ToastOptions * list Invocation :=
  match ts with
  | [] => ([], log)
  | t :: rest =>
      let matchesKey := String.eqb (key t) k in
      let log1 :=
        if matchesKey then invoke (onDismiss (toastProps t)) timeoutExpired log
        else log in
      let (kept, log2) := filterDismiss k timeoutExpired rest log1 in
      (if negb matchesKey then t :: kept else kept, log2)
  end.

(** [dismiss(key, timeoutExpired)]; a caller that leaves [timeoutExpired] out
    passes [false]. *)
Definition dismiss (k : string) (timeoutExpired : bool) : M unit :=
  fun s =>
    let (ts, log) := filterDismiss k timeoutExpired (toasts s) (invoked s) in
    Ok (tt, mkToaster (props s) ts (toastId s) log).

Definition clear : M unit :=
  fun s =>
    let log :=
      fold_left (fun l t => invoke (onDismiss (toastProps t)) false l)
                (toasts s) (invoked s) in
    Ok (tt, mkToaster (props s) [] (toastId s) log).

Definition getToasts : M (list ToastOptions) :=
  fun s => Ok (toasts s, s).

Definition validateProps (p : OverlayToasterProps) : Result unit :=
  match maxToasts p with
  | Some n => if ltNumber n 1%Q then Throw TOASTER_MAX_TOASTS_INVALID else Ok tt
  | None => Ok tt
  end.

(** Reads [this.state.toasts]. *)
Definition isNewToastKey (k : string) (s : Toaster) : bool :=
  forallb (fun toast => negb (String.eqb (key toast) k)) (toasts s).

Definition dismissIfAtLimit : M unit :=
  fun s =>
    let len := Z.of_nat (length (toasts s)) in
    let atLimit :=
      match maxToasts (props s) with
      | Some n => eqNumber (lengthNumber (toasts s)) n
      | None => false
      end in
    if atLimit then
      match index (toasts s) (len - 1) with
      | Some oldest => dismiss (key oldest) false s
      | None => Throw TypeError
      end
    else Ok (tt, s).

Definition createToastOptions (p : ToastProps) (k : option string)
  : M ToastOptions :=
  fun s =>
    match k with
    | Some k' => Ok (mkToast k' p, s)
    | None =>
        Ok (mkToast (autoKey (toastId s)) p,
            mkToaster (props s) (toasts s) (S (toastId s)) (invoked s))
    end.

(** [if (this.props.maxToasts)] *)
Definition truthy (n : option Q) : bool :=
  match n with
  | Some v => negb (eqNumber v 0%Q)
  | None => false
  end.

Definition show (p : ToastProps) (k : option string) : M string :=
  (fun s => if truthy (maxToasts (props s)) then dismissIfAtLimit s
            else Ok (tt, s)) ;;;
  options <- createToastOptions p k ;;
  (fun s =>
     let ts :=
       match k with
       | None => options :: toasts s
       | Some k' =>
           if isNewToastKey k' s then options :: toasts s
           else map (fun t => if String.eqb (key t) k' then options else t)
                    (toasts s)
       end in
     setToasts ts s) ;;;
  ret (key options).

(** Modelled from the spec: the constructor of the component's base class is
    outside the sources at hand; "the queue rejects configuration at
    construction", so construction runs [validateProps] on the props and then
    starts from the initial fields ([toasts: []], [toastId = 0]). *)
Definition construct (p : OverlayToasterProps) : Result Toaster :=
  match validateProps p with
  | Throw e => Throw e
  | Ok _ => Ok (mkToaster p [] 0%nat [])
  end.

(** The calls a client of a toaster can make. *)
Inductive Call :=
| Show (p : ToastProps) (k : option string)
| Dismiss (k : string) (timeoutExpired : bool)
| Clear
| GetToasts.

Definition step (c : Call) : M unit :=
  match c with
  | Show p k => show p k ;;; ret tt
  | Dismiss k timeoutExpired => dismiss k timeoutExpired
  | Clear => clear
  | GetToasts => getToasts ;;; ret tt
  end.

Fixpoint run (calls : list Call) : M unit :=
  match calls with
  | [] => ret tt
  | c :: rest => step c ;;; run rest
  end.

(** Every explicit key of a [show] call that has the shape of a generated
    key, [toast-<n>], is one the toaster has generated before: [n] is below
    [issued], the number of [show] calls without a key made so far. *)
Fixpoint explicitKeysIssued (calls : list Call) (issued : nat) : Prop :=
  match calls with
  | [] => True
  | Show _ (Some k) :: rest =>
      (forall n, k = autoKey n -> (n < issued)%nat) /\
      explicitKeysIssued rest issued
  | Show _ None :: rest => explicitKeysIssued rest (S issued)
  | _ :: rest => explicitKeysIssued rest issued
  end.

(** [show] finds the list at the limit: [maxToasts] is set, is not 0, and is
    the length of the list. *)
Definition atLimit (s : Toaster) : bool :=
  match maxToasts (props s) with
  | Some n => negb (eqNumber n 0%Q) && eqNumber (lengthNumber (toasts s)) n
  | None => false
  end.

(** The toasts with key [k], and the others. *)
Definition hasKey (k : string) (t : ToastOptions) : bool :=
  String.eqb (key t) k.

Definition lacksKey (k : string) (t : ToastOptions) : bool :=
  negb (String.eqb (key t) k).

(** The invocations made when each toast of [ts] is dismissed in turn. *)
Definition dismissals (timeoutExpired : bool) (ts : list ToastOptions)
  : list Invocation :=
  flat_map (fun t => invoke (onDismiss (toastProps t)) timeoutExpired []) ts.

(** [t] with the props of a later [show] under the same key. *)
Definition replaceKey (k : string) (p : ToastProps) (t : ToastOptions)
  : ToastOptions :=
  if String.eqb (key t) k then mkToast k p else t.

(** No two toasts of the list have the same key. *)
Definition uniqueKeys (s : Toaster) : Prop := NoDup (map key (toasts s)).

(** Every generated key in the list was made from a counter value already
    used. *)
Definition keysFresh (s : Toaster) : Prop :=
  forall n, In (autoKey n) (map key (toasts s)) -> (n < toastId s)%nat.

(** The toaster is configured with the whole number [N] as its maximum and
    holds at most [N] toasts. *)
Definition withinLimit (N : Z) (s : Toaster) : Prop :=
  (exists n, maxToasts (props s) = Some n /\ (n == inject_Z N)%Q) /\
  Z.of_nat (length (toasts s)) <= N.

(** The key [show] answers: the one passed in, or the one made from the
    counter. *)
Definition resolvedKey (k : option string) (s : Toaster) : string :=
  match k with
  | Some k' => k'
  | None => autoKey (toastId s)
  end.

(** The number of [show] calls without a key. *)
Fixpoint countUnkeyed (calls : list Call) : nat :=
  match calls with
  | [] => 0
  | Show _ None :: rest => S (countUnkeyed rest)
  | _ :: rest => countUnkeyed rest
  end.

End Toaster.

(** ** Table utilities *)

Module Table.
Import JsArray.

(** [hasLoadingOption]: [undefined] without a list, and otherwise whether
    the option is in it. *)
Definition hasLoadingOption (loadingOptions : option (list string))
  (loadingOption : string) : option bool :=
  match loadingOptions with
  | None => None
  | Some l => Some (indexOf String.eqb l loadingOption >=? 0)
  end.

Section WithTypes.

(** The enum of region cardinalities is declared with the regions; here its
    values are only compared with [===] and [FULL_TABLE] is the one value
    named. *)
Variable RegionCardinality : Type.
Variable cardinalityEqb : RegionCardinality -> RegionCardinality -> bool.
Variable FULL_TABLE : RegionCardinality.

(** Event handlers and the clipboard function are opaque values. *)
Variable Handler : Type.
Variable ClipboardGetter : Type.

(** The props these functions read.  [childrenCount] is
    [React.Children.count(props.children)]; an optional prop is an
    [option]. *)
Record TableProps := mkTableProps {
  childrenCount : nat;
  numRows : option Z;
  selectionModes : list RegionCardinality;
  getCellClipboardData : option ClipboardGetter;
  enableFocusedCell : option bool;
  enableMultipleSelection : option bool
}.

(** The handlers of the hotkeys implementation that are bound here. *)
Record TableHotkeys := mkTableHotkeys {
  handleCopy : Handler;
  handleSelectionResizeUp : Handler;
  handleSelectionResizeDown : Handler;
  handleSelectionResizeLeft : Handler;
  handleSelectionResizeRight : Handler;
  handleFocusMoveLeft : Handler;
  handleFocusMoveRight : Handler;
  handleFocusMoveUp : Handler;
  handleFocusMoveDown : Handler;
  handleFocusMoveRightInternal : Handler;
  handleFocusMoveLeftInternal : Handler;
  handleFocusMoveDownInternal : Handler;
  handleFocusMoveUpInternal : Handler;
  handleSelectAllHotkey : Handler
}.

Record HotkeyConfig := mkHotkey {
  allowInInput : option bool;
  combo : string;
  group : string;
  label : string;
  onKeyDown : Handler
}.

(** [numRows > 0], false for a missing [numRows]. *)
Definition positive (n : option Z) : bool :=
  match n with
  | Some v => 0 <? v
  | None => false
  end.

(** [isSelectionModeEnabled(props, selectionMode, selectionModes)], the
    last argument defaulting to [props.selectionModes]. *)
Definition isSelectionModeEnabled (props : TableProps)
  (selectionMode : RegionCardinality)
  (selectionModes' : option (list RegionCardinality)) : bool :=
  let modes := match selectionModes' with
               | Some m => m
               | None => selectionModes props
               end in
  let numColumns := childrenCount props in
  (indexOf cardinalityEqb modes selectionMode >=? 0)
  && positive (numRows props) && Nat.ltb 0 numColumns.

(** [enableMultipleSelection && ...]: the optional boolean is tested for
    truthiness. *)
Definition isTrue (b : option bool) : bool :=
  match b with
  | Some true => true
  | _ => false
  end.

Definition getHotkeysFromProps (props : TableProps) (hotkeysImpl : TableHotkeys)
  : list HotkeyConfig :=
  let hotkeys0 : list HotkeyConfig := [] in
  let hotkeys1 :=
    match getCellClipboardData props with
    | Some _ =>
        hotkeys0 ++
        [mkHotkey None "mod+c" "Table" "Copy selected table cells"
                  (handleCopy hotkeysImpl)]
    | None => hotkeys0
    end in
  let isSomeSelectionModeEnabled :=
    Nat.ltb 0 (length (selectionModes props)) in
  let hotkeys2 :=
    if isTrue (enableMultipleSelection props) && isSomeSelectionModeEnabled
    then
      hotkeys1 ++
      [mkHotkey None "shift+up" "Table" "Resize selection upward"
                (handleSelectionResizeUp hotkeysImpl);
       mkHotkey None "shift+down" "Table" "Resize selection downward"
                (handleSelectionResizeDown hotkeysImpl);
       mkHotkey None "shift+left" "Table" "Resize selection leftward"
                (handleSelectionResizeLeft hotkeysImpl);
       mkHotkey None "shift+right" "Table" "Resize selection rightward"
                (handleSelectionResizeRight hotkeysImpl)]
    else hotkeys1 in
  let hotkeys3 :=
    match enableFocusedCell props with
    | Some _ =>
        hotkeys2 ++
        [mkHotkey None "left" "Table" "Move focus cell left"
                  (handleFocusMoveLeft hotkeysImpl);
         mkHotkey None "right" "Table" "Move focus cell right"
                  (handleFocusMoveRight hotkeysImpl);
         mkHotkey None "up" "Table" "Move focus cell up"
                  (handleFocusMoveUp hotkeysImpl);
         mkHotkey None "down" "Table" "Move focus cell down"
                  (handleFocusMoveDown hotkeysImpl);
         mkHotkey (Some true) "tab" "Table" "Move focus cell tab"
                  (handleFocusMoveRightInternal hotkeysImpl);
         mkHotkey (Some true) "shift+tab" "Table" "Move focus cell shift tab"
                  (handleFocusMoveLeftInternal hotkeysImpl);
         mkHotkey (Some true) "enter" "Table" "Move focus cell enter"
                  (handleFocusMoveDownInternal hotkeysImpl);
         mkHotkey (Some true) "shift+enter" "Table"
                  "Move focus cell shift enter"
                  (handleFocusMoveUpInternal hotkeysImpl)]
    | None => hotkeys2
    end in
  if isSelectionModeEnabled props FULL_TABLE None
  then hotkeys3 ++
       [mkHotkey None "mod+a" "Table" "Select all"
                 (handleSelectAllHotkey hotkeysImpl)]
  else hotkeys3.

End WithTypes.

Arguments childrenCount {RegionCardinality ClipboardGetter} _.
Arguments numRows {RegionCardinality ClipboardGetter} _.
Arguments selectionModes {RegionCardinality ClipboardGetter} _.
Arguments getCellClipboardData {RegionCardinality ClipboardGetter} _.
Arguments enableFocusedCell {RegionCardinality ClipboardGetter} _.
Arguments enableMultipleSelection {RegionCardinality ClipboardGetter} _.
Arguments mkTableProps {RegionCardinality ClipboardGetter} _ _ _ _ _ _.
Arguments combo {Handler} _.
Arguments group {Handler} _.
Arguments label {Handler} _.
Arguments onKeyDown {Handler} _.
Arguments allowInInput {Handler} _.
Arguments mkHotkey {Handler} _ _ _ _ _.
Arguments isSelectionModeEnabled {RegionCardinality} cardinalityEqb
  {ClipboardGetter} props selectionMode selectionModes'.
Arguments getHotkeysFromProps {RegionCardinality} cardinalityEqb FULL_TABLE
  {Handler ClipboardGetter} props hotkeysImpl.

End Table.

(** * Facts about the array primitives *)

Module JsArrayFacts.
Import JsArray.

Section Facts.
Context {A : Type}.
Implicit Types (p : A -> bool) (l : list A).

(** [findIndexFrom] either rejects every element and answers -1, or stops
    at the first accepted element and answers its position. *)
Lemma findIndexFrom_cases p l : forall i,
  (Forall (fun x => p x = false) l /\ findIndexFrom p l i = -1) \/
  (exists pre x post,
      l = pre ++ x :: post /\
      Forall (fun y => p y = false) pre /\
      p x = true /\
      findIndexFrom p l i = i + Z.of_nat (length pre)).
Proof.
  induction l as [|a l IH]; intros i; cbn [findIndexFrom].
  - left. split; [constructor | reflexivity].
  - destruct (p a) eqn:Hpa.
    + right. exists [], a, l. cbn. repeat split; auto. lia.
    + destruct (IH (i + 1)) as [[Hall Hidx] | (pre & x & post & -> & Hpre & Hx & Hidx)].
      * left. split; [constructor; assumption | assumption].
      * right. exists (a :: pre), x, post. cbn [app length].
        repeat split; auto. rewrite Hidx. lia.
Qed.

Lemma findIndex_cases p l :
  (Forall (fun x => p x = false) l /\ findIndex p l = -1) \/
  (exists pre x post,
      l = pre ++ x :: post /\
      Forall (fun y => p y = false) pre /\
      p x = true /\
      findIndex p l = Z.of_nat (length pre)).
Proof. apply (findIndexFrom_cases p l 0). Qed.

Lemma relativeStart_prefix (pre post : list A) :
  relativeStart (pre ++ post) (Z.of_nat (length pre)) = length pre.
Proof.
  unfold relativeStart.
  destruct (Z.of_nat (length pre) <? 0) eqn:Hneg; [apply Z.ltb_lt in Hneg; lia|].
  rewrite Nat2Z.id, length_app. lia.
Qed.

Lemma slice_at_prefix (pre post : list A) :
  slice (pre ++ post) (Z.of_nat (length pre)) = post.
Proof.
  unfold slice. rewrite relativeStart_prefix.
  induction pre as [|a pre IH]; [reflexivity | exact IH].
Qed.

Lemma splice1_at_prefix (pre : list A) (x : A) (post : list A) :
  splice1 (pre ++ x :: post) (Z.of_nat (length pre)) = pre ++ post.
Proof.
  unfold splice1. rewrite relativeStart_prefix.
  induction pre as [|a pre IH]; cbn [app length firstn skipn].
  - reflexivity.
  - cbn [app length firstn skipn] in IH. f_equal. exact IH.
Qed.

Lemma filter_length_0 p l :
  Nat.eqb (length (filter p l)) 0 = negb (existsb p l).
Proof.
  induction l as [|a l IH]; cbn [filter existsb]; [reflexivity|].
  destruct (p a); [reflexivity | exact IH].
Qed.

Lemma existsb_false_Forall p l :
  existsb p l = false <-> Forall (fun x => p x = false) l.
Proof.
  induction l as [|a l IH]; cbn [existsb].
  - split; [constructor | reflexivity].
  - rewrite orb_false_iff, IH. split.
    + intros [? ?]. constructor; assumption.
    + intros H. inversion H; subst. split; assumption.
Qed.

End Facts.

End JsArrayFacts.

(** * The overlay stack: proofs *)

Module OverlayStackFacts.
Import JsArray JsArrayFacts OverlayStack.

Lemma sameId_true o x : sameId o x = true <-> id x = id o.
Proof. unfold sameId. apply String.eqb_eq. Qed.

Lemma sameId_false o x : sameId o x = false <-> id x <> id o.
Proof. unfold sameId. apply String.eqb_neq. Qed.

Lemma absent_iff o l :
  existsb (sameId o) l = false <-> ~ In (id o) (map id l).
Proof.
  rewrite existsb_false_Forall, Forall_forall, in_map_iff. split.
  - intros H (x & Hid & Hin). apply (proj1 (sameId_false o x) (H x Hin)). exact Hid.
  - intros H x Hin. apply sameId_false. intros Hid. apply H. exists x. auto.
Qed.

Lemma locksScroll_true o :
  locksScroll o = true <->
  usePortal (props o) = true /\ hasBackdrop (props o) = true.
Proof. unfold locksScroll. apply andb_true_iff. Qed.

Lemma scrollLockMatches_alt e :
  scrollLockMatches e <-> overlayOpen e = existsb locksScroll (stack e).
Proof.
  unfold scrollLockMatches.
  assert (Hex : existsb locksScroll (stack e) = true <->
                exists o, In o (stack e) /\
                  usePortal (props o) = true /\ hasBackdrop (props o) = true).
  { rewrite existsb_exists. split; intros (o & Hin & H); exists o;
      (split; [exact Hin | apply locksScroll_true; exact H]). }
  rewrite <- Hex.
  destruct (overlayOpen e), (existsb locksScroll (stack e)); intuition congruence.
Qed.

(** What [closeOverlay] does to the stack: nothing when no id matches, and
    otherwise it takes out the first entry with the id. *)
Lemma closeOverlay_stack o e :
  (Forall (fun x => sameId o x = false) (stack e) /\
   stack (closeOverlay o e) = stack e) \/
  (exists pre x post,
      stack e = pre ++ x :: post /\
      Forall (fun y => sameId o y = false) pre /\
      sameId o x = true /\
      stack (closeOverlay o e) = pre ++ post).
Proof.
  unfold closeOverlay.
  destruct (findIndex_cases (sameId o) (stack e))
    as [[Hall Hidx] | (pre & x & post & Hst & Hpre & Hx & Hidx)].
  - left. split; [exact Hall|]. rewrite Hidx. cbn.
    destruct (Nat.eqb _ 0); reflexivity.
  - right. exists pre, x, post. repeat split; auto.
    rewrite Hidx.
    assert (Hgt : (Z.of_nat (length pre) >? -1) = true) by (apply Z.gtb_lt; lia).
    rewrite Hgt, Hst, splice1_at_prefix.
    destruct (Nat.eqb _ 0); reflexivity.
Qed.

(** ... and to the scroll lock: it stays as it was when another overlay with
    a backdrop remains, and is released otherwise. *)
Lemma closeOverlay_overlayOpen o e :
  overlayOpen (closeOverlay o e) =
  existsb (fun x => locksScroll x && negb (String.eqb (id x) (id o))) (stack e)
  && overlayOpen e.
Proof.
  unfold closeOverlay. rewrite filter_length_0.
  destruct (existsb _ (stack e)); reflexivity.
Qed.

Lemma openOverlay_stack o e : stack (openOverlay o e) = stack e ++ [o].
Proof. unfold openOverlay. destruct (locksScroll o); reflexivity. Qed.

Lemma openOverlay_overlayOpen o e :
  overlayOpen (openOverlay o e) = locksScroll o || overlayOpen e.
Proof. unfold openOverlay. destruct (locksScroll o); reflexivity. Qed.

Lemma getThisOverlayAndDescendants_env o e :
  snd (getThisOverlayAndDescendants o e) = e.
Proof.
  unfold getThisOverlayAndDescendants.
  destruct (findIndex _ _ =? -1); reflexivity.
Qed.

Lemma existsb_ext_in {A} (f g : A -> bool) l :
  (forall x, In x l -> f x = g x) -> existsb f l = existsb g l.
Proof.
  induction l as [|a l IH]; intros H; cbn [existsb]; [reflexivity|].
  rewrite (H a (or_introl eq_refl)), IH; [reflexivity|].
  intros x Hx. apply H. right. exact Hx.
Qed.

(** ** Unique ids *)

Lemma closeOverlay_uniqueIds o e : uniqueIds e -> uniqueIds (closeOverlay o e).
Proof.
  unfold uniqueIds. intros Hnd.
  destruct (closeOverlay_stack o e)
    as [[_ ->] | (pre & x & post & Hst & _ & _ & ->)]; [exact Hnd|].
  rewrite Hst, map_app in Hnd. cbn [map] in Hnd.
  rewrite map_app. eapply NoDup_remove_1. exact Hnd.
Qed.

Lemma openOverlay_uniqueIds o e :
  existsb (sameId o) (stack e) = false ->
  uniqueIds e -> uniqueIds (openOverlay o e).
Proof.
  unfold uniqueIds. intros Hfresh Hnd.
  rewrite openOverlay_stack, map_app. cbn [map].
  apply absent_iff in Hfresh.
  apply NoDup_app; [exact Hnd | repeat constructor; intros [] |].
  intros a Ha [<- | []]. exact (Hfresh Ha).
Qed.

Lemma step_uniqueIds c e :
  match c with
  | OpenOverlay o => existsb (sameId o) (stack e) = false
  | _ => True
  end ->
  uniqueIds e -> uniqueIds (step c e).
Proof.
  destruct c as [o | o | | o |]; cbn [step]; intros Hc He.
  - apply openOverlay_uniqueIds; assumption.
  - apply closeOverlay_uniqueIds; assumption.
  - exact He.
  - rewrite getThisOverlayAndDescendants_env. exact He.
  - unfold uniqueIds, resetStack. cbn. constructor.
Qed.

Lemma run_uniqueIds calls : forall e,
  opensFresh calls e = true -> uniqueIds e -> uniqueIds (run calls e).
Proof.
  induction calls as [|c calls IH]; intros e Hok He; cbn [run]; [exact He|].
  cbn [opensFresh] in Hok. apply andb_true_iff in Hok as [Hc Hrest].
  apply IH; [exact Hrest|].
  apply step_uniqueIds; [|exact He].
  destruct c; try exact I. apply negb_true_iff in Hc. exact Hc.
Qed.

(** ** The scroll lock *)

(** With unique ids, the overlays [closeOverlay] counts before it removes
    the entry are the lock holders that remain after. *)
Lemma closeOverlay_others o e :
  uniqueIds e ->
  existsb (fun x => locksScroll x && negb (String.eqb (id x) (id o))) (stack e)
  = existsb locksScroll (stack (closeOverlay o e)).
Proof.
  unfold uniqueIds. intros Hnd.
  assert (Hkeep : forall l, Forall (fun y => sameId o y = false) l ->
            existsb (fun x => locksScroll x && negb (String.eqb (id x) (id o))) l
            = existsb locksScroll l).
  { intros l Hl. apply existsb_ext_in. intros y Hy.
    rewrite Forall_forall in Hl. specialize (Hl y Hy). unfold sameId in Hl.
    rewrite Hl. apply andb_true_r. }
  destruct (closeOverlay_stack o e)
    as [[Hall ->] | (pre & x & post & Hst & Hpre & Hx & ->)].
  - apply Hkeep. exact Hall.
  - rewrite Hst, !existsb_app. cbn [existsb].
    rewrite Hst, map_app in Hnd. cbn [map] in Hnd.
    apply NoDup_remove_2 in Hnd.
    assert (Hpost : Forall (fun y => sameId o y = false) post).
    { apply Forall_forall. intros y Hy. apply sameId_false. intros Hid.
      apply Hnd. apply in_or_app. right. apply in_map_iff.
      exists y. split; [|exact Hy]. apply sameId_true in Hx. congruence. }
    rewrite (Hkeep pre Hpre), (Hkeep post Hpost).
    unfold sameId in Hx. rewrite Hx. cbn. rewrite andb_false_r. reflexivity.
Qed.

Lemma closeOverlay_sub o e :
  existsb locksScroll (stack (closeOverlay o e)) = true ->
  existsb locksScroll (stack e) = true.
Proof.
  destruct (closeOverlay_stack o e)
    as [[_ ->] | (pre & x & post & Hst & _ & _ & ->)]; [trivial|].
  rewrite Hst, !existsb_app. cbn [existsb].
  intros H. apply orb_true_iff in H as [H | H]; rewrite H;
    [reflexivity | rewrite !orb_true_r; reflexivity].
Qed.

Lemma step_scrollLock c e :
  match c with
  | ResetStack => existsb locksScroll (stack e) = false
  | _ => True
  end ->
  uniqueIds e ->
  overlayOpen e = existsb locksScroll (stack e) ->
  overlayOpen (step c e) = existsb locksScroll (stack (step c e)).
Proof.
  destruct c as [o | o | | o |]; cbn [step]; intros Hc Hu He.
  - rewrite openOverlay_overlayOpen, openOverlay_stack, existsb_app, He.
    cbn [existsb]. rewrite orb_false_r. apply orb_comm.
  - rewrite closeOverlay_overlayOpen, (closeOverlay_others o e Hu).
    destruct (existsb locksScroll (stack (closeOverlay o e))) eqn:Hleft;
      [|reflexivity].
    rewrite He, (closeOverlay_sub o e Hleft). reflexivity.
  - exact He.
  - rewrite getThisOverlayAndDescendants_env. exact He.
  - cbn. rewrite He. exact Hc.
Qed.

Lemma run_scrollLock calls : forall e,
  opensFresh calls e = true ->
  resetsWhenUnlocked calls e = true ->
  uniqueIds e ->
  overlayOpen e = existsb locksScroll (stack e) ->
  overlayOpen (run calls e) = existsb locksScroll (stack (run calls e)).
Proof.
  induction calls as [|c calls IH]; intros e Hf Hr Hu He; cbn [run];
    [exact He|].
  cbn [opensFresh] in Hf. apply andb_true_iff in Hf as [Hfc Hf].
  cbn [resetsWhenUnlocked] in Hr. apply andb_true_iff in Hr as [Hrc Hr].
  apply IH; [exact Hf | exact Hr | |].
  - apply step_uniqueIds; [|exact Hu].
    destruct c; try exact I. apply negb_true_iff in Hfc. exact Hfc.
  - apply step_scrollLock; [|exact Hu | exact He].
    destruct c; try exact I. apply negb_true_iff in Hrc. exact Hrc.
Qed.

Lemma emptyEnv_uniqueIds : uniqueIds emptyEnv.
Proof. constructor. Qed.

(** C1, as amended.  For every sequence of calls from the empty stack in
    which [openOverlay] is never given an id that is on the stack and
    [resetStack] is only called while no open overlay has both [usePortal]
    and [hasBackdrop], the scroll lock is on if and only if an overlay on the
    stack has both. *)
Theorem scroll_lock_iff_backdrop_on_stack (calls : list Call) :
  opensFresh calls emptyEnv = true ->
  resetsWhenUnlocked calls emptyEnv = true ->
  scrollLockMatches (run calls emptyEnv).
Proof.
  intros Hf Hr. apply scrollLockMatches_alt.
  apply run_scrollLock; auto using emptyEnv_uniqueIds.
Qed.

Lemma scroll_lock_iff_backdrop_on_stack_witness :
  let dialog := mkOverlay "dialog" (mkOverlayProps true true) in
  let popover := mkOverlay "popover" (mkOverlayProps true false) in
  scrollLockMatches
    (run [OpenOverlay dialog; OpenOverlay popover; CloseOverlay dialog;
          CloseOverlay popover; ResetStack] emptyEnv).
Proof.
  intros dialog popover.
  apply (scroll_lock_iff_backdrop_on_stack
           [OpenOverlay dialog; OpenOverlay popover; CloseOverlay dialog;
            CloseOverlay popover; ResetStack]); reflexivity.
Defined.

(** C1 fails as stated: [resetStack] empties the stack and leaves the body
    class in place, so after opening an overlay with a backdrop in a portal
    and resetting, the lock is on over an empty stack. *)
Lemma scroll_lock_survives_resetStack :
  let dialog := mkOverlay "dialog" (mkOverlayProps true true) in
  ~ scrollLockMatches (run [OpenOverlay dialog; ResetStack] emptyEnv).
Proof.
  intros dialog [Hon _]. destruct (Hon eq_refl) as (o & [] & _).
Qed.

(** The other way the lock and the stack come apart: two entries under one
    id.  Closing one releases the lock although the other is still open. *)
Lemma scroll_lock_released_under_duplicate_id :
  let dialog := mkOverlay "dialog" (mkOverlayProps true true) in
  ~ scrollLockMatches
      (run [OpenOverlay dialog; OpenOverlay dialog; CloseOverlay dialog]
           emptyEnv).
Proof.
  intros dialog [_ Hoff].
  assert (H : overlayOpen
                (run [OpenOverlay dialog; OpenOverlay dialog;
                      CloseOverlay dialog] emptyEnv) = true).
  { apply Hoff. exists dialog. repeat split. left. reflexivity. }
  discriminate H.
Qed.

(** ** Lookups by id *)

(** C7.  When no entry of the stack has the id of [o], [closeOverlay o]
    leaves the stack as it is and [getThisOverlayAndDescendants o] answers
    the empty list (and leaves the environment alone).  Both are total: no
    step of either can throw. *)
Theorem unknown_id_is_noop (o : OverlayInstance) (e : Env) :
  (forall x, In x (stack e) -> id x <> id o) ->
  stack (closeOverlay o e) = stack e /\
  getThisOverlayAndDescendants o e = ([], e).
Proof.
  intros Habsent.
  assert (Hnone : findIndex (sameId o) (stack e) = -1).
  { destruct (findIndex_cases (sameId o) (stack e))
      as [[_ H] | (pre & x & post & Hst & _ & Hx & _)]; [exact H|].
    exfalso. apply (Habsent x).
    - rewrite Hst. apply in_or_app. right. left. reflexivity.
    - apply sameId_true. exact Hx. }
  split.
  - destruct (closeOverlay_stack o e)
      as [[_ H] | (pre & x & post & Hst & _ & Hx & _)]; [exact H|].
    exfalso. apply (Habsent x).
    + rewrite Hst. apply in_or_app. right. left. reflexivity.
    + apply sameId_true. exact Hx.
  - unfold getThisOverlayAndDescendants. rewrite Hnone. reflexivity.
Qed.

Lemma unknown_id_is_noop_witness :
  let dialog := mkOverlay "dialog" (mkOverlayProps true true) in
  let popover := mkOverlay "popover" (mkOverlayProps true false) in
  let e := run [OpenOverlay dialog] emptyEnv in
  stack (closeOverlay popover e) = stack e /\
  getThisOverlayAndDescendants popover e = ([], e).
Proof.
  intros dialog popover e.
  apply (unknown_id_is_noop popover e).
  intros x [<- | []]. cbn. discriminate.
Defined.

(** C8.  When some entry of the stack has the id of [o],
    [getThisOverlayAndDescendants o] answers the suffix of the stack that
    starts at the first such entry, and leaves the environment alone. *)
Theorem descendants_are_suffix_from_first_match
  (o : OverlayInstance) (e : Env) :
  (exists x, In x (stack e) /\ id x = id o) ->
  exists pre x post,
    stack e = pre ++ x :: post /\
    (forall y, In y pre -> id y <> id o) /\
    id x = id o /\
    getThisOverlayAndDescendants o e = (x :: post, e).
Proof.
  intros (x0 & Hin & Hid).
  destruct (findIndex_cases (sameId o) (stack e))
    as [[Hall _] | (pre & x & post & Hst & Hpre & Hx & Hidx)].
  - exfalso. rewrite Forall_forall in Hall.
    apply (proj1 (sameId_false o x0) (Hall x0 Hin)). exact Hid.
  - exists pre, x, post. split; [exact Hst|]. split; [|split].
    + intros y Hy. apply sameId_false.
      rewrite Forall_forall in Hpre. exact (Hpre y Hy).
    + apply sameId_true. exact Hx.
    + unfold getThisOverlayAndDescendants. rewrite Hidx.
      assert (Hne : (Z.of_nat (length pre) =? -1) = false)
        by (apply Z.eqb_neq; lia).
      rewrite Hne, Hst, slice_at_prefix. reflexivity.
Qed.

Lemma descendants_are_suffix_from_first_match_witness :
  let dialog := mkOverlay "dialog" (mkOverlayProps true true) in
  let popover := mkOverlay "popover" (mkOverlayProps true false) in
  let tooltip := mkOverlay "tooltip" (mkOverlayProps false false) in
  let e := run [OpenOverlay dialog; OpenOverlay popover; OpenOverlay tooltip]
               emptyEnv in
  exists pre x post,
    stack e = pre ++ x :: post /\
    (forall y, In y pre -> id y <> id popover) /\
    id x = id popover /\
    getThisOverlayAndDescendants popover e = (x :: post, e).
Proof.
  intros dialog popover tooltip e.
  apply (descendants_are_suffix_from_first_match popover e).
  exists popover. split; [right; left; reflexivity | reflexivity].
Defined.

Example descendants_of_popover :
  let dialog := mkOverlay "dialog" (mkOverlayProps true true) in
  let popover := mkOverlay "popover" (mkOverlayProps true false) in
  let tooltip := mkOverlay "tooltip" (mkOverlayProps false false) in
  let e := run [OpenOverlay dialog; OpenOverlay popover; OpenOverlay tooltip]
               emptyEnv in
  fst (getThisOverlayAndDescendants popover e) = [popover; tooltip].
Proof. reflexivity. Qed.

(** ** The top of the stack, and opening and closing in turn *)

Lemma at_last {A} (rest : list A) (x : A) : at_ (rest ++ [x]) (-1) = Some x.
Proof.
  unfold at_. cbn [Z.ltb Z.compare]. rewrite length_app. cbn [length].
  replace (Z.of_nat (length rest + 1) + -1) with (Z.of_nat (length rest))
    by lia.
  destruct (Z.of_nat (length rest) <? 0) eqn:Hneg;
    [apply Z.ltb_lt in Hneg; lia|].
  rewrite Nat2Z.id, nth_error_app2, Nat.sub_diag; [reflexivity | lia].
Qed.

(** [getLastOpened] answers the overlay [openOverlay] has just pushed; it
    answers [undefined] exactly on the empty stack; it changes nothing. *)
Theorem getLastOpened_is_last_pushed (o : OverlayInstance) (e : Env) :
  getLastOpened (openOverlay o e) = (Some o, openOverlay o e) /\
  (fst (getLastOpened e) = None <-> stack e = []) /\
  snd (getLastOpened e) = e.
Proof.
  unfold getLastOpened. cbn [fst snd]. split; [|split; [|reflexivity]].
  - rewrite openOverlay_stack, at_last. reflexivity.
  - split.
    + destruct (stack e) as [|x l] eqn:Hst; [reflexivity|].
      destruct (exists_last (l := x :: l)) as (rest & y & ->); [discriminate|].
      rewrite at_last. discriminate.
    + intros ->. reflexivity.
Qed.

Lemma findIndexFrom_first {A} (p : A -> bool) pre x post : forall i,
  Forall (fun y => p y = false) pre -> p x = true ->
  findIndexFrom p (pre ++ x :: post) i = i + Z.of_nat (length pre).
Proof.
  induction pre as [|a pre IH]; intros i Hpre Hx; cbn [app findIndexFrom length].
  - rewrite Hx. lia.
  - inversion Hpre as [|? ? Ha Hrest]; subst. rewrite Ha, IH by assumption. lia.
Qed.

Lemma findIndex_first {A} (p : A -> bool) pre x post :
  Forall (fun y => p y = false) pre -> p x = true ->
  findIndex p (pre ++ x :: post) = Z.of_nat (length pre).
Proof. intros Hpre Hx. unfold findIndex. rewrite findIndexFrom_first; auto. Qed.

Lemma closeOverlay_stack_at o e pre x post :
  stack e = pre ++ x :: post ->
  Forall (fun y => sameId o y = false) pre -> sameId o x = true ->
  stack (closeOverlay o e) = pre ++ post.
Proof.
  intros Hst Hpre Hx. unfold closeOverlay.
  rewrite Hst, (findIndex_first (sameId o) pre x post Hpre Hx).
  assert (Hgt : (Z.of_nat (length pre) >? -1) = true) by (apply Z.gtb_lt; lia).
  rewrite Hgt, splice1_at_prefix.
  destruct (Nat.eqb _ 0); reflexivity.
Qed.

Lemma env_eta e : e = mkEnv (stack e) (overlayOpen e).
Proof. destruct e; reflexivity. Qed.

Lemma absent_Forall o l :
  (forall x, In x l -> id x <> id o) ->
  Forall (fun y => sameId o y = false) l.
Proof.
  intros H. apply Forall_forall. intros y Hy. apply sameId_false. auto.
Qed.

(** When the id of [o] is not on the stack and the scroll lock agrees with
    the stack, opening [o] and closing it again gives back the environment:
    the same stack and the same lock. *)
Theorem closeOverlay_undoes_openOverlay (o : OverlayInstance) (e : Env) :
  (forall x, In x (stack e) -> id x <> id o) ->
  scrollLockMatches e ->
  closeOverlay o (openOverlay o e) = e.
Proof.
  intros Hfresh Hlock. apply scrollLockMatches_alt in Hlock.
  pose proof (absent_Forall o (stack e) Hfresh) as Hall.
  transitivity (mkEnv (stack e) (overlayOpen e)); [|symmetry; apply env_eta].
  rewrite (env_eta (closeOverlay o (openOverlay o e))). f_equal.
  - rewrite (closeOverlay_stack_at o (openOverlay o e) (stack e) o []).
    + cbn. apply app_nil_r.
    + apply openOverlay_stack.
    + exact Hall.
    + apply sameId_true. reflexivity.
  - rewrite closeOverlay_overlayOpen, openOverlay_stack, openOverlay_overlayOpen.
    rewrite existsb_app. cbn [existsb]. rewrite String.eqb_refl.
    cbn [negb]. rewrite andb_false_r, !orb_false_r.
    assert (Hsame :
      existsb (fun x => locksScroll x && negb (String.eqb (id x) (id o)))
              (stack e) = existsb locksScroll (stack e)).
    { apply existsb_ext_in. intros y Hy.
      rewrite Forall_forall in Hall. specialize (Hall y Hy).
      unfold sameId in Hall. rewrite Hall. apply andb_true_r. }
    rewrite Hsame, <- Hlock.
    destruct (overlayOpen e), (locksScroll o); reflexivity.
Qed.

Lemma closeOverlay_undoes_openOverlay_witness :
  let dialog := mkOverlay "dialog" (mkOverlayProps true true) in
  let popover := mkOverlay "popover" (mkOverlayProps true false) in
  let e := run [OpenOverlay dialog] emptyEnv in
  closeOverlay popover (openOverlay popover e) = e.
Proof.
  intros dialog popover e.
  apply (closeOverlay_undoes_openOverlay popover e).
  - intros x [<- | []]. cbn. discriminate.
  - apply scrollLockMatches_alt. reflexivity.
Defined.

Lemma closeOverlay_stack_filter o e :
  uniqueIds e ->
  stack (closeOverlay o e) = filter (fun x => negb (sameId o x)) (stack e).
Proof.
  intros Hu.
  assert (Hkeep : forall l, Forall (fun y => sameId o y = false) l ->
                            filter (fun x => negb (sameId o x)) l = l).
  { intros l Hl. apply forallb_filter_id. apply forallb_forall.
    rewrite Forall_forall in Hl. intros y Hy. rewrite (Hl y Hy). reflexivity. }
  destruct (closeOverlay_stack o e)
    as [[Hall ->] | (pre & x & post & Hst & Hpre & Hx & ->)].
  - symmetry. apply Hkeep. exact Hall.
  - unfold uniqueIds in Hu. rewrite Hst, map_app in Hu. cbn [map] in Hu.
    apply NoDup_remove_2 in Hu.
    assert (Hpost : Forall (fun y => sameId o y = false) post).
    { apply absent_Forall. intros y Hy Hid. apply Hu.
      apply in_or_app. right. apply in_map_iff. exists y.
      split; [|exact Hy]. apply sameId_true in Hx. congruence. }
    rewrite Hst, filter_app. cbn [filter]. rewrite Hx. cbn [negb].
    rewrite (Hkeep pre Hpre), (Hkeep post Hpost). reflexivity.
Qed.

(** With unique ids, [closeOverlay o] is the filter that drops the id of
    [o]: no entry with that id is left and the others keep their order. *)
Theorem closeOverlay_filters_unique_ids (o : OverlayInstance) (e : Env) :
  uniqueIds e ->
  stack (closeOverlay o e) = filter (fun x => negb (sameId o x)) (stack e) /\
  ~ In (id o) (map id (stack (closeOverlay o e))).
Proof.
  intros Hu. split; [apply closeOverlay_stack_filter; exact Hu|].
  rewrite (closeOverlay_stack_filter o e Hu), in_map_iff.
  intros (y & Hid & Hin).
  apply filter_In in Hin as [_ Hne].
  apply negb_true_iff, sameId_false in Hne. contradiction.
Qed.

Lemma closeOverlay_filters_unique_ids_witness :
  let dialog := mkOverlay "dialog" (mkOverlayProps true true) in
  let popover := mkOverlay "popover" (mkOverlayProps true false) in
  let tooltip := mkOverlay "tooltip" (mkOverlayProps false false) in
  let e := mkEnv [dialog; popover; tooltip] true in
  stack (closeOverlay popover e) = [dialog; tooltip] /\
  ~ In "popover" (map id (stack (closeOverlay popover e))).
Proof.
  intros dialog popover tooltip e.
  apply (closeOverlay_filters_unique_ids popover e).
  unfold uniqueIds. cbn.
  repeat constructor; cbn; intuition discriminate.
Defined.

Lemma first_match_split o (l : list OverlayInstance) :
  (exists x, In x l /\ id x = id o) ->
  exists pre x post,
    l = pre ++ x :: post /\
    Forall (fun y => sameId o y = false) pre /\ sameId o x = true.
Proof.
  intros (x0 & Hin & Hid).
  destruct (findIndex_cases (sameId o) l)
    as [[Hall _] | (pre & x & post & Hst & Hpre & Hx & _)].
  - exfalso. rewrite Forall_forall in Hall.
    apply (proj1 (sameId_false o x0) (Hall x0 Hin)). exact Hid.
  - exists pre, x, post. auto.
Qed.

Lemma closeOverlay_id_gone o e :
  uniqueIds e -> ~ In (id o) (map id (stack (closeOverlay o e))).
Proof.
  intros Hu.
  destruct (closeOverlay_stack o e)
    as [[Hall ->] | (pre & x & post & Hst & Hpre & Hx & ->)].
  - apply absent_iff. apply existsb_false_Forall. exact Hall.
  - unfold uniqueIds in Hu. rewrite Hst, map_app in Hu. cbn [map] in Hu.
    apply NoDup_remove_2 in Hu. apply sameId_true in Hx.
    rewrite map_app, <- Hx. exact Hu.
Qed.

(** When some entry has the id of [o], [closeOverlay o] takes out the first
    such entry and nothing else: with the same id on the stack twice, the
    later entry stays. *)
Theorem closeOverlay_removes_first_match (o : OverlayInstance) (e : Env) :
  (exists x, In x (stack e) /\ id x = id o) ->
  exists pre x post,
    stack e = pre ++ x :: post /\
    (forall y, In y pre -> id y <> id o) /\
    id x = id o /\
    stack (closeOverlay o e) = pre ++ post /\
    S (length (stack (closeOverlay o e))) = length (stack e).
Proof.
  intros (x0 & Hin & Hid).
  destruct (closeOverlay_stack o e)
    as [[Hall _] | (pre & x & post & Hst & Hpre & Hx & Hclose)].
  - exfalso. rewrite Forall_forall in Hall.
    apply (proj1 (sameId_false o x0) (Hall x0 Hin)). exact Hid.
  - exists pre, x, post. split; [exact Hst|]. split; [|split; [|split]].
    + intros y Hy. apply sameId_false.
      rewrite Forall_forall in Hpre. exact (Hpre y Hy).
    + apply sameId_true. exact Hx.
    + exact Hclose.
    + rewrite Hclose, Hst, !length_app. cbn [length]. lia.
Qed.

Lemma closeOverlay_removes_first_match_witness :
  let first := mkOverlay "dialog" (mkOverlayProps true true) in
  let second := mkOverlay "dialog" (mkOverlayProps false false) in
  let e := mkEnv [first; second] true in
  exists pre x post,
    stack e = pre ++ x :: post /\
    (forall y, In y pre -> id y <> id second) /\
    id x = id second /\
    stack (closeOverlay second e) = pre ++ post /\
    S (length (stack (closeOverlay second e))) = length (stack e).
Proof.
  intros first second e.
  apply (closeOverlay_removes_first_match second e).
  exists first. split; [left; reflexivity | reflexivity].
Defined.

(** With unique ids, closing the same overlay a second time changes
    nothing, neither the stack nor the lock. *)
Theorem closeOverlay_twice (o : OverlayInstance) (e : Env) :
  uniqueIds e ->
  closeOverlay o (closeOverlay o e) = closeOverlay o e.
Proof.
  intros Hu.
  pose proof (closeOverlay_uniqueIds o e Hu) as Hu1.
  pose proof (closeOverlay_id_gone o e Hu) as Hgone.
  rewrite (env_eta (closeOverlay o (closeOverlay o e))).
  rewrite (env_eta (closeOverlay o e)) at 3.
  assert (Hst : stack (closeOverlay o (closeOverlay o e))
                = stack (closeOverlay o e)).
  { destruct (closeOverlay_stack o (closeOverlay o e))
      as [[_ H] | (pre & x & post & Hst & _ & Hx & _)]; [exact H|].
    exfalso. apply Hgone. rewrite Hst, map_app. apply in_or_app. right.
    left. apply sameId_true. exact Hx. }
  f_equal; [exact Hst|].
  rewrite (closeOverlay_overlayOpen o (closeOverlay o e)).
  rewrite (closeOverlay_others o (closeOverlay o e) Hu1), Hst.
  rewrite (closeOverlay_overlayOpen o e), (closeOverlay_others o e Hu).
  destruct (existsb locksScroll (stack (closeOverlay o e))); reflexivity.
Qed.

Lemma closeOverlay_twice_witness :
  let dialog := mkOverlay "dialog" (mkOverlayProps true true) in
  let popover := mkOverlay "popover" (mkOverlayProps true false) in
  let e := mkEnv [dialog; popover] true in
  closeOverlay dialog (closeOverlay dialog e) = closeOverlay dialog e.
Proof.
  intros dialog popover e. apply (closeOverlay_twice dialog e).
  unfold uniqueIds. cbn. repeat constructor; cbn; intuition discriminate.
Defined.

(** ** The lock needs a holder *)

Lemma step_lock_has_holder c e :
  match c with
  | ResetStack => existsb locksScroll (stack e) = false
  | _ => True
  end ->
  (overlayOpen e = true -> existsb locksScroll (stack e) = true) ->
  overlayOpen (step c e) = true ->
  existsb locksScroll (stack (step c e)) = true.
Proof.
  destruct c as [o | o | | o |]; cbn [step]; intros Hc He.
  - rewrite openOverlay_overlayOpen, openOverlay_stack, existsb_app.
    cbn [existsb]. rewrite orb_false_r. intros H.
    apply orb_true_iff in H as [H | H]; [rewrite H; apply orb_true_r|].
    rewrite (He H). reflexivity.
  - rewrite closeOverlay_overlayOpen. intros H.
    apply andb_true_iff in H as [H _].
    apply existsb_exists in H as (x & Hin & Hx).
    apply andb_true_iff in Hx as [Hlock Hne].
    apply negb_true_iff, String.eqb_neq in Hne.
    apply existsb_exists. exists x. split; [|exact Hlock].
    destruct (closeOverlay_stack o e)
      as [[_ ->] | (pre & y & post & Hst & _ & Hy & ->)]; [exact Hin|].
    rewrite Hst in Hin. apply in_app_or in Hin as [Hin | [Heq | Hin]].
    + apply in_or_app. left. exact Hin.
    + subst y. apply sameId_true in Hy. contradiction.
    + apply in_or_app. right. exact Hin.
  - exact He.
  - rewrite getThisOverlayAndDescendants_env. exact He.
  - cbn. intros H. rewrite (He H) in Hc. discriminate Hc.
Qed.

(** Whatever ids are opened, twice or not: as long as [resetStack] is only
    called while no open overlay has both [usePortal] and [hasBackdrop], the
    scroll lock is never on over a stack without such an overlay. *)
Theorem scroll_lock_has_holder (calls : list Call) :
  resetsWhenUnlocked calls emptyEnv = true ->
  overlayOpen (run calls emptyEnv) = true ->
  exists o, In o (stack (run calls emptyEnv)) /\
            usePortal (props o) = true /\ hasBackdrop (props o) = true.
Proof.
  intros Hr Hon.
  assert (Hgen : forall cs e,
            resetsWhenUnlocked cs e = true ->
            (overlayOpen e = true -> existsb locksScroll (stack e) = true) ->
            overlayOpen (run cs e) = true ->
            existsb locksScroll (stack (run cs e)) = true).
  { induction cs as [|c cs IH]; intros e Hg He; cbn [run]; [exact He|].
    cbn [resetsWhenUnlocked] in Hg. apply andb_true_iff in Hg as [Hc Hg].
    apply IH; [exact Hg|].
    apply step_lock_has_holder; [|exact He].
    destruct c; try exact I. apply negb_true_iff in Hc. exact Hc. }
  specialize (Hgen calls emptyEnv Hr (fun H => ltac:(discriminate H)) Hon).
  apply existsb_exists in Hgen as (o & Hin & Hlock).
  exists o. split; [exact Hin | apply locksScroll_true; exact Hlock].
Qed.

Lemma scroll_lock_has_holder_witness :
  let dialog := mkOverlay "dialog" (mkOverlayProps true true) in
  let other := mkOverlay "other" (mkOverlayProps true true) in
  exists o,
    In o (stack (run [OpenOverlay dialog; OpenOverlay dialog;
                      OpenOverlay other; CloseOverlay dialog] emptyEnv)) /\
    usePortal (props o) = true /\ hasBackdrop (props o) = true.
Proof.
  intros dialog other.
  apply (scroll_lock_has_holder
           [OpenOverlay dialog; OpenOverlay dialog; OpenOverlay other;
            CloseOverlay dialog]); reflexivity.
Defined.

(** ** Descendants of an open overlay *)

(** An overlay opened later is a descendant of every overlay that is on the
    stack: for [p] on the stack, the descendants of [p] after [openOverlay o]
    are its descendants before, followed by [o]. *)
Theorem opened_overlay_joins_descendants (p o : OverlayInstance) (e : Env) :
  (exists x, In x (stack e) /\ id x = id p) ->
  fst (getThisOverlayAndDescendants p (openOverlay o e))
  = fst (getThisOverlayAndDescendants p e) ++ [o].
Proof.
  intros Hon.
  destruct (first_match_split p (stack e) Hon)
    as (pre & x & post & Hst & Hpre & Hx).
  assert (Hne : (Z.of_nat (length pre) =? -1) = false)
    by (apply Z.eqb_neq; lia).
  unfold getThisOverlayAndDescendants.
  rewrite openOverlay_stack, Hst, <- app_assoc. cbn [app].
  rewrite (findIndex_first (sameId p) pre x (post ++ [o]) Hpre Hx).
  rewrite (findIndex_first (sameId p) pre x post Hpre Hx).
  rewrite Hne, !slice_at_prefix. reflexivity.
Qed.

Lemma opened_overlay_joins_descendants_witness :
  let dialog := mkOverlay "dialog" (mkOverlayProps true true) in
  let popover := mkOverlay "popover" (mkOverlayProps true false) in
  let tooltip := mkOverlay "tooltip" (mkOverlayProps false false) in
  let e := run [OpenOverlay dialog; OpenOverlay popover] emptyEnv in
  fst (getThisOverlayAndDescendants popover (openOverlay tooltip e))
  = fst (getThisOverlayAndDescendants popover e) ++ [tooltip].
Proof.
  intros dialog popover tooltip e.
  apply (opened_overlay_joins_descendants popover tooltip e).
  exists popover. split; [right; left; reflexivity | reflexivity].
Defined.

(** An overlay opened under an id that is not on the stack has itself as its
    only descendant. *)
Theorem opened_overlay_has_no_descendants (o : OverlayInstance) (e : Env) :
  (forall x, In x (stack e) -> id x <> id o) ->
  fst (getThisOverlayAndDescendants o (openOverlay o e)) = [o].
Proof.
  intros Hfresh. unfold getThisOverlayAndDescendants.
  rewrite openOverlay_stack.
  rewrite (findIndex_first (sameId o) (stack e) o []).
  - assert (Hne : (Z.of_nat (length (stack e)) =? -1) = false)
      by (apply Z.eqb_neq; lia).
    rewrite Hne, slice_at_prefix. reflexivity.
  - apply absent_Forall. exact Hfresh.
  - apply sameId_true. reflexivity.
Qed.

Lemma opened_overlay_has_no_descendants_witness :
  let dialog := mkOverlay "dialog" (mkOverlayProps true true) in
  let popover := mkOverlay "popover" (mkOverlayProps true false) in
  let e := run [OpenOverlay dialog] emptyEnv in
  fst (getThisOverlayAndDescendants popover (openOverlay popover e))
  = [popover].
Proof.
  intros dialog popover e.
  apply (opened_overlay_has_no_descendants popover e).
  intros x [<- | []]. cbn. discriminate.
Defined.

(** ** What the stack holds *)

(** From the empty stack, when [openOverlay] is never given an id that is
    on the stack, the stack after any calls is the list of the overlays that
    were opened and not closed since, in the order they were opened. *)
Theorem stack_is_still_open_overlays (calls : list Call) :
  opensFresh calls emptyEnv = true ->
  stack (run calls emptyEnv) = stillOpen calls [].
Proof.
  assert (Hgen : forall cs e,
            opensFresh cs e = true -> uniqueIds e ->
            stack (run cs e) = stillOpen cs (stack e)).
  { induction cs as [|c cs IH]; intros e Hf Hu; [reflexivity|].
    cbn [opensFresh] in Hf. apply andb_true_iff in Hf as [Hc Hf].
    cbn [run]. rewrite IH; [|exact Hf|].
    - destruct c as [o | o | | o |]; cbn [step stillOpen].
      + rewrite openOverlay_stack. reflexivity.
      + rewrite (closeOverlay_stack_filter o e Hu). reflexivity.
      + reflexivity.
      + rewrite getThisOverlayAndDescendants_env. reflexivity.
      + reflexivity.
    - apply step_uniqueIds; [|exact Hu].
      destruct c; try exact I. apply negb_true_iff in Hc. exact Hc. }
  intros Hf. apply (Hgen calls emptyEnv Hf emptyEnv_uniqueIds).
Qed.

Lemma stack_is_still_open_overlays_witness :
  let dialog := mkOverlay "dialog" (mkOverlayProps true true) in
  let popover := mkOverlay "popover" (mkOverlayProps true false) in
  let tooltip := mkOverlay "tooltip" (mkOverlayProps false false) in
  stack (run [OpenOverlay dialog; OpenOverlay popover; OpenOverlay tooltip;
              CloseOverlay popover; CloseOverlay popover] emptyEnv)
  = [dialog; tooltip].
Proof.
  intros dialog popover tooltip.
  apply (stack_is_still_open_overlays
           [OpenOverlay dialog; OpenOverlay popover; OpenOverlay tooltip;
            CloseOverlay popover; CloseOverlay popover]).
  reflexivity.
Defined.

End OverlayStackFacts.

(** * The toast queue: proofs *)

Module ToasterFacts.
Import JsArray JsArrayFacts Toaster.

Lemma invoke_app cb timeoutExpired log :
  invoke cb timeoutExpired log = log ++ invoke cb timeoutExpired [].
Proof. destruct cb; cbn; [reflexivity | symmetry; apply app_nil_r]. Qed.

(** The traversal of [dismiss] keeps the toasts with another key and calls
    the callbacks of the toasts with the key, front to back. *)
Lemma filterDismiss_eq k timeoutExpired ts : forall log,
  filterDismiss k timeoutExpired ts log =
  (filter (lacksKey k) ts,
   log ++ dismissals timeoutExpired (filter (hasKey k) ts)).
Proof.
  induction ts as [|t ts IH]; intros log; cbn [filterDismiss filter].
  - cbn. rewrite app_nil_r. reflexivity.
  - rewrite IH. unfold lacksKey, hasKey at 2.
    destruct (String.eqb (key t) k); cbn [negb].
    + f_equal. unfold dismissals. cbn [flat_map].
      rewrite invoke_app, <- app_assoc. reflexivity.
    + reflexivity.
Qed.

Lemma dismiss_eq k timeoutExpired s :
  dismiss k timeoutExpired s =
  Ok (tt, mkToaster (props s) (filter (lacksKey k) (toasts s)) (toastId s)
            (invoked s ++
             dismissals timeoutExpired (filter (hasKey k) (toasts s)))).
Proof. unfold dismiss. rewrite filterDismiss_eq. reflexivity. Qed.

Lemma clear_eq s :
  clear s = Ok (tt, mkToaster (props s) [] (toastId s)
                      (invoked s ++ dismissals false (toasts s))).
Proof.
  unfold clear. do 3 f_equal.
  generalize (invoked s). induction (toasts s) as [|t ts IH]; intros log.
  - cbn. symmetry. apply app_nil_r.
  - cbn [fold_left]. rewrite IH. unfold dismissals. cbn [flat_map].
    rewrite invoke_app, <- app_assoc. reflexivity.
Qed.

Lemma lacksKey_all k ts :
  ~ In k (map key ts) -> filter (lacksKey k) ts = ts /\ filter (hasKey k) ts = [].
Proof.
  induction ts as [|t ts IH]; intros Hk; [split; reflexivity|].
  cbn [map In] in Hk. cbn [filter]. unfold lacksKey at 1, hasKey at 1.
  destruct (String.eqb_spec (key t) k) as [Heq | Hne].
  - exfalso. apply Hk. left. exact Heq.
  - destruct IH as [-> ->]; [tauto|]. split; reflexivity.
Qed.

Lemma lacksKey_gone k ts : ~ In k (map key (filter (lacksKey k) ts)).
Proof.
  rewrite in_map_iff. intros (t & Hkey & Hin).
  apply filter_In in Hin as [_ Hlacks]. unfold lacksKey in Hlacks.
  apply negb_true_iff, String.eqb_neq in Hlacks. contradiction.
Qed.

Lemma filter_length_le {A} (f : A -> bool) l :
  (length (filter f l) <= length l)%nat.
Proof.
  induction l as [|a l IH]; cbn [filter]; [lia|].
  destruct (f a); cbn [length]; lia.
Qed.

(** ** Numbers *)

Lemma eqNumber_true x y : eqNumber x y = true <-> (x == y)%Q.
Proof. apply Qeq_bool_iff. Qed.

Lemma eqNumber_false x y : eqNumber x y = false <-> ~ (x == y)%Q.
Proof.
  split.
  - apply Qeq_bool_neq.
  - intros H. destruct (eqNumber x y) eqn:E; [|reflexivity].
    apply eqNumber_true in E. contradiction.
Qed.

Lemma lengthNumber_inj {A B} (l : list A) (l' : list B) (n : Q) :
  (lengthNumber l == n)%Q -> (lengthNumber l' == n)%Q -> length l = length l'.
Proof.
  unfold lengthNumber. intros H H'.
  apply Nat2Z.inj, inject_Z_injective.
  apply (Qeq_trans _ n); [exact H | apply Qeq_sym; exact H'].
Qed.

(** For a maximum that is a whole number other than 0, the list is at the
    limit exactly when it has that many toasts. *)
Lemma atLimit_whole (N : Z) (n : Q) s :
  maxToasts (props s) = Some n -> (n == inject_Z N)%Q -> N <> 0 ->
  atLimit s = (Z.of_nat (length (toasts s)) =? N).
Proof.
  intros Hmax Hn HN. unfold atLimit. rewrite Hmax.
  assert (H0 : eqNumber n 0%Q = false).
  { apply eqNumber_false. intros H. apply HN.
    apply inject_Z_injective.
    apply (Qeq_trans _ n); [apply Qeq_sym; exact Hn | exact H]. }
  rewrite H0. cbn [negb andb].
  destruct (Z.eqb_spec (Z.of_nat (length (toasts s))) N) as [Heq | Hne].
  - apply eqNumber_true. unfold lengthNumber. rewrite Heq.
    apply Qeq_sym. exact Hn.
  - apply eqNumber_false. intros H. apply Hne.
    apply inject_Z_injective.
    apply (Qeq_trans _ n); [exact H | exact Hn].
Qed.

(** ** [show] *)

Lemma index_last {A} (rest : list A) (oldest : A) :
  index (rest ++ [oldest]) (Z.of_nat (length (rest ++ [oldest])) - 1)
  = Some oldest.
Proof.
  unfold index. rewrite length_app. cbn [length].
  replace (Z.of_nat (length rest + 1) - 1) with (Z.of_nat (length rest)) by lia.
  destruct (Z.of_nat (length rest) <? 0) eqn:Hneg;
    [apply Z.ltb_lt in Hneg; lia|].
  rewrite Nat2Z.id, nth_error_app2, Nat.sub_diag; [reflexivity | lia].
Qed.

(** Below the limit the guard of [show] changes nothing. *)
Lemma limit_guard_below s :
  atLimit s = false ->
  (if truthy (maxToasts (props s)) then dismissIfAtLimit s else Ok (tt, s))
  = Ok (tt, s).
Proof.
  unfold atLimit, truthy, dismissIfAtLimit.
  destruct (maxToasts (props s)) as [n|]; [|reflexivity].
  destruct (eqNumber n 0%Q); cbn [negb andb]; [reflexivity|].
  intros ->. reflexivity.
Qed.

(** At the limit the list has a last toast, and the guard dismisses its key
    with [timeoutExpired = false]. *)
Lemma limit_guard_at s :
  atLimit s = true ->
  exists rest oldest,
    toasts s = rest ++ [oldest] /\
    (if truthy (maxToasts (props s)) then dismissIfAtLimit s else Ok (tt, s))
    = dismiss (key oldest) false s.
Proof.
  unfold atLimit, truthy, dismissIfAtLimit.
  destruct (maxToasts (props s)) as [n|]; [|discriminate].
  destruct (eqNumber n 0%Q) eqn:Hn0; cbn [negb andb]; [discriminate|].
  intros Hlen. rewrite Hlen.
  apply eqNumber_true in Hlen. apply eqNumber_false in Hn0.
  destruct (toasts s) as [|t ts] eqn:Hts.
  { exfalso. apply Hn0. apply Qeq_sym. exact Hlen. }
  destruct (exists_last (l := t :: ts)) as (rest & oldest & Hlast);
    [discriminate|].
  exists rest, oldest. split; [exact Hlast|].
  rewrite Hlast, index_last. reflexivity.
Qed.

Lemma show_auto_below_limit p s :
  atLimit s = false ->
  show p None s =
  Ok (autoKey (toastId s),
      mkToaster (props s) (mkToast (autoKey (toastId s)) p :: toasts s)
                (S (toastId s)) (invoked s)).
Proof.
  intros Hlim. unfold show, bind. rewrite (limit_guard_below s Hlim).
  reflexivity.
Qed.

Lemma show_key_below_limit p k s :
  atLimit s = false ->
  show p (Some k) s =
  Ok (k,
      mkToaster (props s)
                (if isNewToastKey k s then mkToast k p :: toasts s
                 else map (replaceKey k p) (toasts s))
                (toastId s) (invoked s)).
Proof.
  intros Hlim. unfold show, bind. rewrite (limit_guard_below s Hlim).
  reflexivity.
Qed.

(** At the limit, [show] is: dismiss the key of the last toast, then [show]
    on what is left, which is below the limit. *)
Lemma show_at_limit p k s :
  atLimit s = true ->
  exists rest oldest s1,
    toasts s = rest ++ [oldest] /\
    dismiss (key oldest) false s = Ok (tt, s1) /\
    atLimit s1 = false /\
    show p k s = show p k s1.
Proof.
  intros Hlim.
  destruct (limit_guard_at s Hlim) as (rest & oldest & Hts & Hguard).
  pose (s1 := mkToaster (props s) (filter (lacksKey (key oldest)) (toasts s))
                (toastId s)
                (invoked s ++
                 dismissals false (filter (hasKey (key oldest)) (toasts s)))).
  assert (Hd : dismiss (key oldest) false s = Ok (tt, s1))
    by apply dismiss_eq.
  assert (Hlim1 : atLimit s1 = false).
  { unfold atLimit in *. cbn [props toasts s1].
    destruct (maxToasts (props s)) as [n|]; [|reflexivity].
    apply andb_true_iff in Hlim as [Hn0 Hlen]. rewrite Hn0. cbn [andb].
    apply eqNumber_true in Hlen. apply eqNumber_false. intros Hlen1.
    pose proof (lengthNumber_inj _ _ n Hlen1 Hlen) as Hsame.
    rewrite Hts, filter_app in Hsame. cbn [filter] in Hsame.
    unfold lacksKey at 2 in Hsame.
    rewrite String.eqb_refl in Hsame. cbn [negb] in Hsame.
    rewrite !length_app in Hsame. cbn [length] in Hsame.
    pose proof (filter_length_le (lacksKey (key oldest)) rest). lia. }
  exists rest, oldest, s1. repeat split; auto.
  unfold show, bind. rewrite Hguard, Hd, (limit_guard_below s1 Hlim1).
  reflexivity.
Qed.

(** ** Properties kept by every call *)

Section Invariant.
Variable P : Toaster -> Prop.
Variable okCall : Call -> Prop.

Hypothesis P_dismiss : forall k timeoutExpired s s1,
  P s -> dismiss k timeoutExpired s = Ok (tt, s1) -> P s1.
Hypothesis P_clear : forall s s1, P s -> clear s = Ok (tt, s1) -> P s1.
Hypothesis P_show : forall p k s,
  okCall (Show p k) -> P s -> atLimit s = false ->
  exists k1 s1, show p k s = Ok (k1, s1) /\ P s1.

Lemma show_preserves p k s :
  okCall (Show p k) -> P s -> exists k1 s1, show p k s = Ok (k1, s1) /\ P s1.
Proof.
  intros Hok HP. destruct (atLimit s) eqn:Hlim.
  - destruct (show_at_limit p k s Hlim)
      as (rest & oldest & s1 & _ & Hd & Hlim1 & ->).
    apply P_show; [exact Hok | | exact Hlim1].
    exact (P_dismiss _ _ _ _ HP Hd).
  - apply P_show; assumption.
Qed.

Lemma step_preserves c s :
  okCall c -> P s -> exists s1, step c s = Ok (tt, s1) /\ P s1.
Proof.
  destruct c as [p k | k timeoutExpired | |]; intros Hok HP; cbn [step].
  - destruct (show_preserves p k s Hok HP) as (k1 & s1 & Hshow & HP1).
    exists s1. unfold bind. rewrite Hshow. split; [reflexivity | exact HP1].
  - rewrite dismiss_eq. eexists. split; [reflexivity|].
    eapply P_dismiss; [exact HP | apply dismiss_eq].
  - rewrite clear_eq. eexists. split; [reflexivity|].
    eapply P_clear; [exact HP | apply clear_eq].
  - exists s. split; [reflexivity | exact HP].
Qed.

Lemma run_preserves calls : forall s,
  Forall okCall calls -> P s -> exists s1, run calls s = Ok (tt, s1) /\ P s1.
Proof.
  induction calls as [|c calls IH]; intros s Hok HP; cbn [run].
  - exists s. split; [reflexivity | exact HP].
  - inversion Hok as [|? ? Hc Hrest]; subst.
    destruct (step_preserves c s Hc HP) as (s1 & Hstep & HP1).
    destruct (IH s1 Hrest HP1) as (s2 & Hrun & HP2).
    exists s2. unfold bind. rewrite Hstep. split; assumption.
Qed.
End Invariant.

(** ** The bound on the length *)

Lemma run_withinLimit N calls s :
  1 <= N -> withinLimit N s ->
  exists s1, run calls s = Ok (tt, s1) /\ withinLimit N s1.
Proof.
  intros HN. apply (run_preserves (withinLimit N) (fun _ => True)).
  - intros k timeoutExpired s0 s1 [Hmax Hlen] Hd.
    rewrite dismiss_eq in Hd. injection Hd as <-. split; [exact Hmax|].
    cbn [toasts]. pose proof (filter_length_le (lacksKey k) (toasts s0)). lia.
  - intros s0 s1 [Hmax Hlen] Hc.
    rewrite clear_eq in Hc. injection Hc as <-. split; [exact Hmax|].
    cbn. lia.
  - intros p k s0 _ [Hmax Hlen] Hlim.
    assert (Hlt : Z.of_nat (length (toasts s0)) < N).
    { destruct Hmax as (n & Hmax & Hn).
      rewrite (atLimit_whole N n s0 Hmax Hn) in Hlim by lia.
      apply Z.eqb_neq in Hlim. lia. }
    destruct k as [k|].
    + rewrite (show_key_below_limit p k s0 Hlim). do 2 eexists.
      split; [reflexivity|]. split; [exact Hmax|]. cbn [toasts].
      destruct (isNewToastKey k s0); [cbn [length]; lia|].
      rewrite length_map. lia.
    + rewrite (show_auto_below_limit p s0 Hlim). do 2 eexists.
      split; [reflexivity|]. split; [exact Hmax|]. cbn [toasts length]. lia.
  - apply Forall_forall. intros; exact I.
Qed.

(** ** Unique keys *)

Lemma autoKey_inj n m : autoKey n = autoKey m -> n = m.
Proof.
  unfold autoKey, numberToString. cbn [String.append]. intros H.
  injection H as H.
  apply Unsigned.to_uint_inj.
  assert (Hs : Some (Nat.to_uint n) = Some (Nat.to_uint m))
    by (rewrite <- !NilEmpty.usu, H; reflexivity).
  injection Hs as Hs. exact Hs.
Qed.

Lemma isNewToastKey_true k s :
  isNewToastKey k s = true <-> ~ In k (map key (toasts s)).
Proof.
  unfold isNewToastKey. rewrite forallb_forall, in_map_iff. split.
  - intros H (t & Hkey & Hin). specialize (H t Hin).
    apply negb_true_iff, String.eqb_neq in H. contradiction.
  - intros H t Hin. apply negb_true_iff, String.eqb_neq.
    intros Hkey. apply H. exists t. auto.
Qed.

Lemma replaceKey_keys k p ts : map key (map (replaceKey k p) ts) = map key ts.
Proof.
  rewrite map_map. apply map_ext. intros t. unfold replaceKey.
  destruct (String.eqb_spec (key t) k) as [Heq | _]; [cbn; auto | reflexivity].
Qed.

Lemma In_map_filter {A B} (g : A -> B) (f : A -> bool) l b :
  In b (map g (filter f l)) -> In b (map g l).
Proof.
  rewrite !in_map_iff. intros (a & Hg & Hin).
  exists a. split; [exact Hg|]. apply filter_In in Hin. tauto.
Qed.

Lemma NoDup_map_filter {A B} (g : A -> B) (f : A -> bool) l :
  NoDup (map g l) -> NoDup (map g (filter f l)).
Proof.
  induction l as [|a l IH]; cbn [map filter]; intros Hnd; [constructor|].
  inversion Hnd as [|? ? Hnotin Hrest]; subst.
  destruct (f a); cbn [map]; [|auto].
  constructor; [|auto]. intros Hin. apply Hnotin.
  eapply In_map_filter. exact Hin.
Qed.

Lemma dismiss_keeps_unique k timeoutExpired s s1 :
  uniqueKeys s -> keysFresh s ->
  dismiss k timeoutExpired s = Ok (tt, s1) ->
  uniqueKeys s1 /\ keysFresh s1 /\ toastId s1 = toastId s.
Proof.
  intros Hu Hf Hd. rewrite dismiss_eq in Hd. injection Hd as <-.
  unfold uniqueKeys, keysFresh. cbn [toasts toastId]. split; [|split].
  - apply NoDup_map_filter. exact Hu.
  - intros n Hin. apply Hf. eapply In_map_filter. exact Hin.
  - reflexivity.
Qed.

Lemma show_below_keeps_unique p k s :
  match k with
  | Some k' => forall n, k' = autoKey n -> (n < toastId s)%nat
  | None => True
  end ->
  uniqueKeys s -> keysFresh s -> atLimit s = false ->
  exists k1 s1,
    show p k s = Ok (k1, s1) /\ uniqueKeys s1 /\ keysFresh s1 /\
    toastId s1 = match k with None => S (toastId s) | Some _ => toastId s end.
Proof.
  intros Hok Hu Hf Hlim. destruct k as [k|].
  - rewrite (show_key_below_limit p k s Hlim). do 2 eexists.
    split; [reflexivity|].
    unfold uniqueKeys, keysFresh. cbn [toasts toastId].
    destruct (isNewToastKey k s) eqn:Hnew.
    + apply isNewToastKey_true in Hnew. cbn [map key].
      split; [constructor; assumption|]. split; [|reflexivity].
      intros n [Heq | Hin]; [apply Hok; exact Heq | apply Hf; exact Hin].
    + rewrite replaceKey_keys. repeat split; assumption.
  - rewrite (show_auto_below_limit p s Hlim). do 2 eexists.
    split; [reflexivity|].
    unfold uniqueKeys, keysFresh. cbn [toasts toastId map key].
    split; [|split; [|reflexivity]].
    + constructor; [|exact Hu]. intros Hin. apply Hf in Hin. lia.
    + intros n [Heq | Hin].
      * apply autoKey_inj in Heq. lia.
      * apply Hf in Hin. lia.
Qed.

Lemma show_keeps_unique p k s :
  match k with
  | Some k' => forall n, k' = autoKey n -> (n < toastId s)%nat
  | None => True
  end ->
  uniqueKeys s -> keysFresh s ->
  exists k1 s1,
    show p k s = Ok (k1, s1) /\ uniqueKeys s1 /\ keysFresh s1 /\
    toastId s1 = match k with None => S (toastId s) | Some _ => toastId s end.
Proof.
  intros Hok Hu Hf. destruct (atLimit s) eqn:Hlim.
  - destruct (show_at_limit p k s Hlim)
      as (rest & oldest & s1 & _ & Hd & Hlim1 & ->).
    destruct (dismiss_keeps_unique _ _ _ _ Hu Hf Hd) as (Hu1 & Hf1 & Hid).
    rewrite <- Hid. apply show_below_keeps_unique; try assumption.
    rewrite Hid. exact Hok.
  - apply show_below_keeps_unique; assumption.
Qed.

Lemma run_uniqueKeys calls : forall s,
  explicitKeysIssued calls (toastId s) ->
  uniqueKeys s -> keysFresh s ->
  exists s1, run calls s = Ok (tt, s1) /\ uniqueKeys s1 /\ keysFresh s1.
Proof.
  induction calls as [|c calls IH]; intros s Hok Hu Hf.
  - exists s. cbn. auto.
  - assert (Hstep : exists s1,
              step c s = Ok (tt, s1) /\ uniqueKeys s1 /\ keysFresh s1 /\
              explicitKeysIssued calls (toastId s1)).
    { destruct c as [p [k|] | k timeoutExpired | |]; cbn [step].
      - cbn [explicitKeysIssued] in Hok. destruct Hok as [Hk Hrest].
        destruct (show_keeps_unique p (Some k) s Hk Hu Hf)
          as (k1 & s1 & Hshow & Hu1 & Hf1 & Hid).
        exists s1. unfold bind. rewrite Hshow.
        repeat split; try assumption. rewrite Hid. exact Hrest.
      - cbn [explicitKeysIssued] in Hok.
        destruct (show_keeps_unique p None s I Hu Hf)
          as (k1 & s1 & Hshow & Hu1 & Hf1 & Hid).
        exists s1. unfold bind. rewrite Hshow.
        repeat split; try assumption. rewrite Hid. exact Hok.
      - cbn [explicitKeysIssued] in Hok.
        destruct (dismiss_keeps_unique k timeoutExpired s _ Hu Hf
                    (dismiss_eq k timeoutExpired s)) as (Hu1 & Hf1 & Hid).
        eexists. split; [apply dismiss_eq|]. repeat split; assumption.
      - cbn [explicitKeysIssued] in Hok. rewrite clear_eq. eexists.
        split; [reflexivity|]. unfold uniqueKeys, keysFresh. cbn.
        split; [constructor|]. split; [intros n []|exact Hok].
      - cbn [explicitKeysIssued] in Hok. exists s. cbn. auto. }
    destruct Hstep as (s1 & Hstep & Hu1 & Hf1 & Hok1).
    destruct (IH s1 Hok1 Hu1 Hf1) as (s2 & Hrun & Hu2 & Hf2).
    exists s2. cbn [run]. unfold bind. rewrite Hstep. auto.
Qed.

(** ** [dismiss] *)

(** C5.  Let [t] be a toast of the list with key [k].  Then
    [dismiss k timeoutExpired] removes it: no toast with key [k] is left and
    the other toasts stay in order.  If [t] has an [onDismiss] callback [c],
    [c] is called once for [t], with exactly [timeoutExpired]: the call
    stands between the calls made for the toasts before [t] and those made
    for the toasts after it; if [t] has none, nothing is called for it.  When
    [t] is the only toast with key [k], that is all that happens: the list is
    the old one without [t] and the log grows by that one call, or not at
    all.  The props and the counter are left alone. *)
Theorem dismiss_invokes_callback_once_and_removes
  (s : Toaster) (pre post : list ToastOptions) (t : ToastOptions)
  (k : string) (timeoutExpired : bool) :
  toasts s = pre ++ t :: post ->
  key t = k ->
  let callForT :=
    match onDismiss (toastProps t) with
    | Some c => [(c, timeoutExpired)]
    | None => []
    end in
  exists s1,
    dismiss k timeoutExpired s = Ok (tt, s1) /\
    toasts s1 = filter (lacksKey k) pre ++ filter (lacksKey k) post /\
    ~ In k (map key (toasts s1)) /\
    invoked s1 =
      invoked s ++ dismissals timeoutExpired (filter (hasKey k) pre)
                ++ callForT
                ++ dismissals timeoutExpired (filter (hasKey k) post) /\
    (~ In k (map key pre) -> ~ In k (map key post) ->
     toasts s1 = pre ++ post /\ invoked s1 = invoked s ++ callForT) /\
    props s1 = props s /\ toastId s1 = toastId s.
Proof.
  intros Hts Hkey callForT. rewrite dismiss_eq. eexists.
  split; [reflexivity|]. cbn [invoked toasts props toastId].
  assert (Hhas : filter (hasKey k) (pre ++ t :: post)
                 = filter (hasKey k) pre ++ t :: filter (hasKey k) post).
  { rewrite filter_app. cbn [filter]. unfold hasKey at 2.
    rewrite Hkey, String.eqb_refl. reflexivity. }
  assert (Hlacks : filter (lacksKey k) (pre ++ t :: post)
                   = filter (lacksKey k) pre ++ filter (lacksKey k) post).
  { rewrite filter_app. cbn [filter]. unfold lacksKey at 2.
    rewrite Hkey, String.eqb_refl. reflexivity. }
  rewrite Hts, Hhas, Hlacks.
  assert (Hinv : dismissals timeoutExpired
                   (filter (hasKey k) pre ++ t :: filter (hasKey k) post)
                 = dismissals timeoutExpired (filter (hasKey k) pre)
                   ++ callForT
                   ++ dismissals timeoutExpired (filter (hasKey k) post)).
  { unfold dismissals. rewrite flat_map_app. cbn [flat_map].
    subst callForT. destruct (onDismiss (toastProps t)); reflexivity. }
  rewrite Hinv. split; [reflexivity|]. split; [|split; [reflexivity|]].
  - rewrite <- filter_app. apply lacksKey_gone.
  - split; [|split; reflexivity].
    intros Hpre Hpost.
    destruct (lacksKey_all k pre Hpre) as [-> ->].
    destruct (lacksKey_all k post Hpost) as [-> ->].
    cbn [dismissals flat_map app]. rewrite app_nil_r.
    split; reflexivity.
Qed.

Lemma dismiss_invokes_callback_once_and_removes_witness :
  let a := mkToast "a" (mkToastProps "saved" (Some 1%nat)) in
  let b := mkToast "b" (mkToastProps "sent" (Some 2%nat)) in
  let quiet := mkToast "c" (mkToastProps "queued" None) in
  let s := mkToaster (mkProps None) [b; quiet; a] 0 [] in
  (exists s1,
      dismiss "b" true s = Ok (tt, s1) /\
      toasts s1 = [quiet; a] /\ invoked s1 = [(2%nat, true)]) /\
  (exists s1,
      dismiss "c" true s = Ok (tt, s1) /\
      toasts s1 = [b; a] /\ invoked s1 = []).
Proof.
  intros a b quiet s. split.
  - destruct (dismiss_invokes_callback_once_and_removes
                s [] [quiet; a] b "b" true eq_refl eq_refl)
      as (s1 & Hd & _ & _ & _ & Honly & _).
    exists s1. split; [exact Hd|].
    apply Honly; cbn; intuition discriminate.
  - destruct (dismiss_invokes_callback_once_and_removes
                s [b] [a] quiet "c" true eq_refl eq_refl)
      as (s1 & Hd & _ & _ & _ & Honly & _).
    exists s1. split; [exact Hd|].
    apply Honly; cbn; intuition discriminate.
Defined.

(** C9.  When no toast of the list has key [k], [dismiss k timeoutExpired]
    changes nothing: the list is the same and no callback is called. *)
Theorem dismiss_unknown_key_is_noop
  (s : Toaster) (k : string) (timeoutExpired : bool) :
  ~ In k (map key (toasts s)) ->
  dismiss k timeoutExpired s = Ok (tt, s).
Proof.
  intros Hk. rewrite dismiss_eq.
  destruct (lacksKey_all k (toasts s) Hk) as [-> ->].
  cbn. rewrite app_nil_r. destruct s; reflexivity.
Qed.

Lemma dismiss_unknown_key_is_noop_witness :
  let a := mkToast "a" (mkToastProps "saved" (Some 1%nat)) in
  let s := mkToaster (mkProps (Some 3%Q)) [a] 0 [] in
  dismiss "b" false s = Ok (tt, s).
Proof.
  intros a s. apply (dismiss_unknown_key_is_noop s "b" false).
  cbn. intros [H | []]. discriminate H.
Defined.

(** ** Validation *)

(** C6.  [validateProps] throws exactly when [maxToasts] is defined and less
    than 1, and then construction fails with the same error; when
    [maxToasts] is at least 1 or left undefined, validation passes and
    construction yields the empty toaster. *)
Theorem maxToasts_below_one_rejected (cfg : OverlayToasterProps) :
  ((exists n, maxToasts cfg = Some n /\ (n < 1)%Q) ->
   validateProps cfg = Throw TOASTER_MAX_TOASTS_INVALID /\
   construct cfg = Throw TOASTER_MAX_TOASTS_INVALID) /\
  ((maxToasts cfg = None \/ exists n, maxToasts cfg = Some n /\ (1 <= n)%Q) ->
   validateProps cfg = Ok tt /\
   construct cfg = Ok (mkToaster cfg [] 0 [])).
Proof.
  unfold construct, validateProps, ltNumber. split.
  - intros (n & -> & Hn).
    assert (Hle : Qle_bool 1 n = false).
    { destruct (Qle_bool 1 n) eqn:E; [|reflexivity].
      apply Qle_bool_iff in E. exfalso. exact (Qlt_not_le _ _ Hn E). }
    rewrite Hle. split; reflexivity.
  - intros [-> | (n & -> & Hn)]; [split; reflexivity|].
    apply Qle_bool_iff in Hn. rewrite Hn. split; reflexivity.
Qed.

Lemma maxToasts_below_one_rejected_witness :
  construct (mkProps (Some 0%Q)) = Throw TOASTER_MAX_TOASTS_INVALID /\
  construct (mkProps (Some (1 # 2)%Q)) = Throw TOASTER_MAX_TOASTS_INVALID /\
  construct (mkProps (Some 1%Q)) = Ok (mkToaster (mkProps (Some 1%Q)) [] 0 []) /\
  construct (mkProps None) = Ok (mkToaster (mkProps None) [] 0 []).
Proof.
  split; [|split; [|split]].
  - apply (maxToasts_below_one_rejected (mkProps (Some 0%Q))).
    exists 0%Q. split; reflexivity.
  - apply (maxToasts_below_one_rejected (mkProps (Some (1 # 2)%Q))).
    exists (1 # 2)%Q. split; reflexivity.
  - apply (maxToasts_below_one_rejected (mkProps (Some 1%Q))).
    right. exists 1%Q. split; [reflexivity | discriminate].
  - apply (maxToasts_below_one_rejected (mkProps None)).
    left. reflexivity.
Defined.

(** ** The limit *)

Lemma atLimit_true (N : Z) (n : Q) s :
  1 <= N -> maxToasts (props s) = Some n -> (n == inject_Z N)%Q ->
  Z.of_nat (length (toasts s)) = N -> atLimit s = true.
Proof.
  intros HN Hmax Hn Hlen.
  rewrite (atLimit_whole N n s Hmax Hn) by lia. apply Z.eqb_eq. exact Hlen.
Qed.

Lemma atLimit_false (N : Q) s :
  maxToasts (props s) = Some N ->
  (lengthNumber (toasts s) < N)%Q -> atLimit s = false.
Proof.
  intros Hmax Hlen. unfold atLimit. rewrite Hmax.
  apply andb_false_iff. right. apply eqNumber_false.
  apply Qlt_not_eq. exact Hlen.
Qed.

(** C3, as amended.  On a toaster whose maximum is a whole number [N >= 1],
    every sequence of [show], [dismiss] and [clear] calls runs to the end and
    leaves at most [N] toasts.  And when [show] meets a list of exactly [N]
    toasts, it first dismisses the key of the last toast, the oldest one,
    with [timeoutExpired = false], and then inserts into what is left: the
    new toast goes to the front, or takes the place of the toast that has its
    key.  With unique keys what is left is the list without its last
    element, and the one call made is that of the oldest toast's
    [onDismiss]. *)
Theorem toast_list_bounded_oldest_evicted_first (N : Z) (n : Q) :
  1 <= N -> (n == inject_Z N)%Q ->
  (forall s0 calls,
      construct (mkProps (Some n)) = Ok s0 ->
      exists s, run calls s0 = Ok (tt, s) /\
                Z.of_nat (length (toasts s)) <= N) /\
  (forall s p k,
      maxToasts (props s) = Some n ->
      Z.of_nat (length (toasts s)) = N ->
      exists rest oldest s1,
        toasts s = rest ++ [oldest] /\
        let left := filter (lacksKey (key oldest)) (toasts s) in
        show p k s = Ok (resolvedKey k s, s1) /\
        match k with
        | None => toasts s1 = mkToast (autoKey (toastId s)) p :: left
        | Some k' =>
            (~ In k' (map key left) -> toasts s1 = mkToast k' p :: left) /\
            (In k' (map key left) -> toasts s1 = map (replaceKey k' p) left)
        end /\
        invoked s1 =
          invoked s ++
          dismissals false (filter (hasKey (key oldest)) (toasts s)) /\
        ~ In (key oldest) (map key left) /\
        Z.of_nat (length left) < N /\
        (uniqueKeys s ->
         left = rest /\
         invoked s1 =
           invoked s ++ match onDismiss (toastProps oldest) with
                        | Some c => [(c, false)]
                        | None => []
                        end)).
Proof.
  intros HN Hn. split.
  - intros s0 calls Hnew.
    unfold construct, validateProps in Hnew. cbn [maxToasts] in Hnew.
    destruct (ltNumber n 1); [discriminate|]. injection Hnew as <-.
    destruct (run_withinLimit N calls
                (mkToaster (mkProps (Some n)) [] 0 []) HN)
      as (s & Hrun & _ & Hlen).
    + split; [exists n; split; [reflexivity | exact Hn] | cbn; lia].
    + exists s. split; assumption.
  - intros s p k Hmax Hlen.
    destruct (show_at_limit p k s (atLimit_true N n s HN Hmax Hn Hlen))
      as (rest & oldest & s1 & Hts & Hd & Hlim1 & Hshow).
    rewrite dismiss_eq in Hd. injection Hd as <-.
    assert (Hleft : filter (lacksKey (key oldest)) (toasts s)
                    = filter (lacksKey (key oldest)) rest).
    { rewrite Hts, filter_app. cbn [filter]. unfold lacksKey at 2.
      rewrite String.eqb_refl. cbn [negb]. apply app_nil_r. }
    assert (Hhas : filter (hasKey (key oldest)) (toasts s)
                   = filter (hasKey (key oldest)) rest ++ [oldest]).
    { rewrite Hts, filter_app. cbn [filter]. unfold hasKey at 2.
      rewrite String.eqb_refl. reflexivity. }
    assert (Hshort : Z.of_nat (length (filter (lacksKey (key oldest))
                                              (toasts s))) < N).
    { rewrite Hleft.
      pose proof (filter_length_le (lacksKey (key oldest)) rest).
      rewrite Hts, length_app in Hlen. cbn [length] in Hlen. lia. }
    assert (Hunique : uniqueKeys s ->
              filter (lacksKey (key oldest)) (toasts s) = rest /\
              dismissals false (filter (hasKey (key oldest)) (toasts s))
              = match onDismiss (toastProps oldest) with
                | Some c => [(c, false)]
                | None => []
                end).
    { intros Hu. unfold uniqueKeys in Hu.
      rewrite Hts, map_app in Hu. cbn [map] in Hu.
      apply NoDup_remove_2 in Hu. rewrite app_nil_r in Hu.
      rewrite Hleft, Hhas.
      destruct (lacksKey_all (key oldest) rest Hu) as [-> ->].
      split; [reflexivity|]. unfold dismissals. cbn [flat_map app].
      rewrite app_nil_r.
      destruct (onDismiss (toastProps oldest)); reflexivity. }
    exists rest, oldest. rewrite Hshow.
    destruct k as [k|].
    + rewrite (show_key_below_limit p k _ Hlim1). eexists.
      split; [exact Hts|]. cbn zeta. split; [reflexivity|].
      cbn [toasts invoked]. split; [|split; [reflexivity|split; [|split]]].
      * split.
        -- intros Hnew.
           match goal with
           | |- context [isNewToastKey k ?st] =>
               rewrite (proj2 (isNewToastKey_true k st) Hnew)
           end. reflexivity.
        -- intros Hold.
           match goal with
           | |- context [isNewToastKey k ?st] =>
               destruct (isNewToastKey k st) eqn:Hnew; [|reflexivity]
           end.
           apply isNewToastKey_true in Hnew. cbn [toasts] in Hnew.
           contradiction.
      * apply lacksKey_gone.
      * exact Hshort.
      * intros Hu. destruct (Hunique Hu) as [H1 H2].
        split; [exact H1 | rewrite H2; reflexivity].
    + rewrite (show_auto_below_limit p _ Hlim1). eexists.
      split; [exact Hts|]. cbn zeta. split; [reflexivity|].
      cbn [toasts invoked toastId].
      split; [reflexivity|]. split; [reflexivity|].
      split; [apply lacksKey_gone|]. split; [exact Hshort|].
      intros Hu. destruct (Hunique Hu) as [H1 H2].
      split; [exact H1 | rewrite H2; reflexivity].
Qed.

Lemma toast_list_bounded_oldest_evicted_first_witness :
  let a := mkToast "a" (mkToastProps "saved" (Some 1%nat)) in
  let b := mkToast "b" (mkToastProps "sent" None) in
  let fresh := mkToastProps "queued" None in
  let full := mkToaster (mkProps (Some 2%Q)) [b; a] 0 [] in
  (exists s,
      run [Show fresh None; Show fresh None; Show fresh None; Dismiss "x" true]
          (mkToaster (mkProps (Some 2%Q)) [] 0 []) = Ok (tt, s) /\
      Z.of_nat (length (toasts s)) <= 2) /\
  (exists s1,
      show fresh None full = Ok ("toast-0", s1) /\
      toasts s1 = [mkToast "toast-0" fresh; b] /\
      invoked s1 = [(1%nat, false)]).
Proof.
  intros a b fresh full.
  destruct (toast_list_bounded_oldest_evicted_first 2 2%Q) as [Hbound Hevict];
    [lia | reflexivity |].
  split.
  - apply Hbound. reflexivity.
  - destruct (Hevict full fresh None eq_refl eq_refl)
      as (rest & oldest & s1 & Hts & Hshow & Hnew & Hinv & _ & _ & Hu).
    change ([b] ++ [a] = rest ++ [oldest]) in Hts.
    apply app_inj_tail in Hts as [<- <-].
    exists s1. split; [exact Hshow|]. split; [exact Hnew | exact Hinv].
Defined.

(** C3 fails as stated for a maximum that is not a whole number: 1.5 passes
    validation, the length of the list is never equal to it, so nothing is
    ever evicted and two [show] calls leave two toasts. *)
Lemma fractional_maximum_is_exceeded :
  let p := mkToastProps "saved" None in
  (1 <= 3 # 2)%Q /\
  exists s0 s,
    construct (mkProps (Some (3 # 2)%Q)) = Ok s0 /\
    run [Show p None; Show p None] s0 = Ok (tt, s) /\
    (3 # 2 < lengthNumber (toasts s))%Q.
Proof.
  intros p. split; [discriminate|].
  do 2 eexists. split; [reflexivity|]. split; reflexivity.
Qed.





(** The same run with generated keys. *)
Example three_unkeyed_shows_with_maximum_two :
  let pA := mkToastProps "A" (Some 7%nat) in
  let pB := mkToastProps "B" None in
  let pC := mkToastProps "C" None in
  run [Show pA None; Show pB None; Show pC None]
      (mkToaster (mkProps (Some 2%Q)) [] 0 [])
  = Ok (tt, mkToaster (mkProps (Some 2%Q))
                      [mkToast "toast-2" pC; mkToast "toast-1" pB] 3
                      [(7%nat, false)]).
Proof. reflexivity. Qed.

(** ** Updating by key *)

(** C10.  On a list strictly below the configured maximum [N], [show p k]
    for a key [k] that is in the list answers [k] and replaces in place:
    every position that held a toast with key [k] now holds the toast made of
    [k] and [p], every other position holds what it held, and the length is
    the same.  No callback is called and the counter does not move. *)
Theorem show_existing_key_replaces_in_place
  (s : Toaster) (N : Q) (p : ToastProps) (k : string) :
  maxToasts (props s) = Some N ->
  (lengthNumber (toasts s) < N)%Q ->
  In k (map key (toasts s)) ->
  exists s1,
    show p (Some k) s = Ok (k, s1) /\
    length (toasts s1) = length (toasts s) /\
    (forall i t, nth_error (toasts s) i = Some t -> key t = k ->
                 nth_error (toasts s1) i = Some (mkToast k p)) /\
    (forall i t, nth_error (toasts s) i = Some t -> key t <> k ->
                 nth_error (toasts s1) i = Some t) /\
    invoked s1 = invoked s /\ toastId s1 = toastId s /\ props s1 = props s.
Proof.
  intros Hmax Hlen Hin.
  rewrite (show_key_below_limit p k s (atLimit_false N s Hmax Hlen)).
  assert (Hold : isNewToastKey k s = false).
  { destruct (isNewToastKey k s) eqn:Hnew; [|reflexivity].
    apply isNewToastKey_true in Hnew. contradiction. }
  rewrite Hold. eexists. split; [reflexivity|]. cbn [toasts invoked toastId props].
  split; [apply length_map|]. split; [|split; [|repeat split]].
  - intros i t Hi Hk. rewrite nth_error_map, Hi. cbn [option_map].
    unfold replaceKey. apply String.eqb_eq in Hk. rewrite Hk. reflexivity.
  - intros i t Hi Hk. rewrite nth_error_map, Hi. cbn [option_map].
    unfold replaceKey. apply String.eqb_neq in Hk. rewrite Hk. reflexivity.
Qed.

Lemma show_existing_key_replaces_in_place_witness :
  let a := mkToast "a" (mkToastProps "saving" (Some 1%nat)) in
  let b := mkToast "b" (mkToastProps "sent" None) in
  let done := mkToastProps "saved" None in
  let s := mkToaster (mkProps (Some 3%Q)) [b; a] 0 [] in
  exists s1,
    show done (Some "a") s = Ok ("a", s1) /\
    length (toasts s1) = 2%nat /\
    nth_error (toasts s1) 1 = Some (mkToast "a" done) /\
    nth_error (toasts s1) 0 = Some b.
Proof.
  intros a b done s.
  destruct (show_existing_key_replaces_in_place s 3%Q done "a")
    as (s1 & Hshow & Hlen & Hsame & Hother & _);
    [reflexivity | reflexivity | right; left; reflexivity |].
  exists s1. split; [exact Hshow|]. split; [exact Hlen|]. split.
  - apply (Hsame 1%nat a); reflexivity.
  - apply (Hother 0%nat b); [reflexivity | discriminate].
Defined.

(** At the limit the same call is not an update: the oldest toast goes
    first, and when it is the one being shown again, the new props come in
    at the front as a new toast. *)
Example show_existing_key_at_limit :
  let a := mkToast "a" (mkToastProps "saving" (Some 1%nat)) in
  let b := mkToast "b" (mkToastProps "sent" None) in
  let done := mkToastProps "saved" None in
  show done (Some "a") (mkToaster (mkProps (Some 2%Q)) [b; a] 0 [])
  = Ok ("a", mkToaster (mkProps (Some 2%Q)) [mkToast "a" done; b] 0
                       [(1%nat, false)]).
Proof. reflexivity. Qed.

(** ** What [show] does in every state *)

(** The state [show] inserts into: the state itself below the limit, and at
    the limit the state after the key of the last toast was dismissed. *)
Lemma show_spec p k s :
  exists s0,
    ((atLimit s = false /\ s0 = s) \/
     (atLimit s = true /\
      exists rest oldest,
        toasts s = rest ++ [oldest] /\
        s0 = mkToaster (props s)
               (filter (lacksKey (key oldest)) (toasts s)) (toastId s)
               (invoked s ++
                dismissals false (filter (hasKey (key oldest)) (toasts s))))) /\
    show p k s =
    Ok (resolvedKey k s,
        mkToaster (props s)
          match k with
          | None => mkToast (autoKey (toastId s)) p :: toasts s0
          | Some k' =>
              if isNewToastKey k' s0 then mkToast k' p :: toasts s0
              else map (replaceKey k' p) (toasts s0)
          end
          match k with
          | None => S (toastId s)
          | Some _ => toastId s
          end
          (invoked s0)).
Proof.
  destruct (atLimit s) eqn:Hlim.
  - destruct (show_at_limit p k s Hlim)
      as (rest & oldest & s1 & Hts & Hd & Hlim1 & ->).
    rewrite dismiss_eq in Hd. injection Hd as <-.
    eexists. split.
    + right. split; [reflexivity|]. exists rest, oldest.
      split; [exact Hts | reflexivity].
    + destruct k as [k|].
      * rewrite (show_key_below_limit _ _ _ Hlim1). reflexivity.
      * rewrite (show_auto_below_limit _ _ Hlim1). reflexivity.
  - exists s. split; [left; split; reflexivity|].
    destruct k as [k|].
    + rewrite (show_key_below_limit _ _ _ Hlim). reflexivity.
    + rewrite (show_auto_below_limit _ _ Hlim). reflexivity.
Qed.

Lemma replaceKey_hit k p t : key t = k -> replaceKey k p t = mkToast k p.
Proof. intros H. unfold replaceKey. apply String.eqb_eq in H. rewrite H. reflexivity. Qed.

(** [show] never throws, whatever the props and the state: it answers the
    key it was given, or the generated key [toast-<counter>], and the list
    then holds a toast with that key and the given props. *)
Theorem show_returns_key_of_listed_toast
  (p : ToastProps) (k : option string) (s : Toaster) :
  exists s1,
    show p k s = Ok (resolvedKey k s, s1) /\
    In (mkToast (resolvedKey k s) p) (toasts s1) /\
    props s1 = props s.
Proof.
  destruct (show_spec p k s) as (s0 & _ & Hshow).
  eexists. split; [exact Hshow|]. cbn [toasts props]. split; [|reflexivity].
  destruct k as [k|]; cbn [resolvedKey]; [|left; reflexivity].
  destruct (isNewToastKey k s0) eqn:Hnew; [left; reflexivity|].
  assert (Hin : In k (map key (toasts s0))).
  { destruct (in_dec string_dec k (map key (toasts s0))) as [H | H];
      [exact H|].
    apply isNewToastKey_true in H. congruence. }
  apply in_map_iff in Hin as (t & Hkey & Hin).
  apply in_map_iff. exists t. split; [apply replaceKey_hit; exact Hkey|exact Hin].
Qed.

Lemma dismissIfAtLimit_cases s :
  (exists s1, dismissIfAtLimit s = Ok (tt, s1)) \/
  (dismissIfAtLimit s = Throw TypeError /\
   (exists n, maxToasts (props s) = Some n /\ (n == 0)%Q) /\ toasts s = []).
Proof.
  unfold dismissIfAtLimit.
  destruct (maxToasts (props s)) as [n|]; [|left; eauto].
  destruct (eqNumber (lengthNumber (toasts s)) n) eqn:Hlen; [|left; eauto].
  destruct (toasts s) as [|t ts] eqn:Hts.
  - right. split; [reflexivity|]. split; [|reflexivity].
    exists n. split; [reflexivity|].
    apply eqNumber_true in Hlen. apply Qeq_sym. exact Hlen.
  - left. destruct (exists_last (l := t :: ts)) as (rest & oldest & Hlast);
      [discriminate|].
    rewrite Hlast, index_last, dismiss_eq. eauto.
Qed.

(** On its own, [dismissIfAtLimit] throws exactly when [maxToasts] is 0 and
    the list is empty, where it reads the key of a toast that is not there.
    Under a truthy [maxToasts], the only way [show] calls it, it does not
    throw; and so [show] itself never throws, in that state or any other. *)
Theorem dismissIfAtLimit_throws_iff (s : Toaster) :
  (dismissIfAtLimit s = Throw TypeError <->
   (exists n, maxToasts (props s) = Some n /\ (n == 0)%Q) /\ toasts s = []) /\
  (truthy (maxToasts (props s)) = true ->
   exists s1, dismissIfAtLimit s = Ok (tt, s1)) /\
  (forall p k, exists k1 s1, show p k s = Ok (k1, s1)).
Proof.
  split; [|split].
  - split.
    + intros Hthrow.
      destruct (dismissIfAtLimit_cases s) as [(s1 & H) | (_ & H)];
        [congruence | exact H].
    + intros [(n & Hmax & Hn) Hts]. unfold dismissIfAtLimit.
      rewrite Hmax, Hts.
      assert (Hlen : eqNumber (lengthNumber (@nil ToastOptions)) n = true)
        by (apply eqNumber_true, Qeq_sym; exact Hn).
      rewrite Hlen. reflexivity.
  - intros Htruthy.
    destruct (dismissIfAtLimit_cases s)
      as [H | (_ & (n & Hmax & Hn) & _)]; [exact H|].
    exfalso. unfold truthy in Htruthy. rewrite Hmax in Htruthy.
    apply negb_true_iff, eqNumber_false in Htruthy. contradiction.
  - intros p k. destruct (show_spec p k s) as (s0 & _ & Hshow).
    do 2 eexists. exact Hshow.
Qed.

Lemma dismissIfAtLimit_throws_iff_witness :
  let s := mkToaster (mkProps (Some 0%Q)) [] 0 [] in
  dismissIfAtLimit s = Throw TypeError /\
  exists k s1, show (mkToastProps "saved" None) None s = Ok (k, s1).
Proof.
  intros s.
  destruct (dismissIfAtLimit_throws_iff s) as (Hthrow & _ & Hshow).
  split.
  - apply Hthrow. split; [|reflexivity].
    exists 0%Q. split; reflexivity.
  - apply Hshow.
Defined.

(** A [show] without a key puts the new toast at the front of the list and
    moves the counter up by one. *)
Theorem unkeyed_show_prepends (p : ToastProps) (s : Toaster) :
  exists s1,
    show p None s = Ok (autoKey (toastId s), s1) /\
    nth_error (toasts s1) 0 = Some (mkToast (autoKey (toastId s)) p) /\
    toastId s1 = S (toastId s).
Proof.
  destruct (show_spec p None s) as (s0 & _ & Hshow).
  eexists. split; [exact Hshow|]. split; reflexivity.
Qed.

Lemma dismissals_flag timeoutExpired ts :
  Forall (fun i : Invocation => snd i = timeoutExpired)
         (dismissals timeoutExpired ts).
Proof.
  unfold dismissals. apply Forall_flat_map. apply Forall_forall.
  intros t _. destruct (onDismiss (toastProps t)); cbn; repeat constructor.
Qed.

(** [show] calls a callback only to make room: below the limit it calls
    none, and every call it makes at the limit passes
    [timeoutExpired = false]. *)
Theorem show_invokes_only_to_evict
  (p : ToastProps) (k : option string) (s : Toaster) :
  exists k1 s1 calls,
    show p k s = Ok (k1, s1) /\
    invoked s1 = invoked s ++ calls /\
    Forall (fun i : Invocation => snd i = false) calls /\
    (atLimit s = false -> calls = []).
Proof.
  destruct (show_spec p k s)
    as (s0 & [[Hlim ->] | (Hlim & rest & oldest & _ & ->)] & Hshow).
  - do 2 eexists. exists []. split; [exact Hshow|]. cbn [invoked].
    rewrite app_nil_r. repeat split; constructor.
  - do 3 eexists. split; [exact Hshow|]. cbn [invoked].
    split; [reflexivity|]. split; [apply dismissals_flag|].
    intros H. congruence.
Qed.

(** [show] makes the list longer by at most one toast, and at the limit it
    never makes it longer. *)
Theorem show_grows_by_at_most_one
  (p : ToastProps) (k : option string) (s : Toaster) :
  exists k1 s1,
    show p k s = Ok (k1, s1) /\
    (length (toasts s1) <= S (length (toasts s)))%nat /\
    (atLimit s = true -> (length (toasts s1) <= length (toasts s))%nat).
Proof.
  destruct (show_spec p k s) as (s0 & Hcase & Hshow).
  do 2 eexists. split; [exact Hshow|]. cbn [toasts].
  assert (Hins : (length
                    match k with
                    | None => mkToast (autoKey (toastId s)) p :: toasts s0
                    | Some k' =>
                        if isNewToastKey k' s0 then mkToast k' p :: toasts s0
                        else map (replaceKey k' p) (toasts s0)
                    end <= S (length (toasts s0)))%nat).
  { destruct k as [k|]; [|cbn [length]; lia].
    destruct (isNewToastKey k s0); [cbn [length]; lia|].
    rewrite length_map. lia. }
  destruct Hcase as [[Hlim ->] | (Hlim & rest & oldest & Hts & Hs0)].
  - split; [exact Hins | intros H; congruence].
  - assert (Hshort : (S (length (toasts s0)) <= length (toasts s))%nat).
    { rewrite Hs0. cbn [toasts].
      rewrite Hts, filter_app, !length_app. cbn [filter].
      unfold lacksKey at 2. rewrite String.eqb_refl. cbn [negb length].
      pose proof (filter_length_le (lacksKey (key oldest)) rest). lia. }
    split; [|intros _]; lia.
Qed.

(** ** Generated keys *)

Lemma run_toastId_mono calls s s1 :
  run calls s = Ok (tt, s1) -> (toastId s <= toastId s1)%nat.
Proof.
  intros Hrun.
  destruct (run_preserves (fun s' => (toastId s <= toastId s')%nat)
                          (fun _ => True)) with (calls := calls) (s := s)
    as (s2 & Hrun2 & Hle).
  - intros k timeoutExpired s0 s' H Hd. rewrite dismiss_eq in Hd.
    injection Hd as <-. exact H.
  - intros s0 s' H Hc. rewrite clear_eq in Hc. injection Hc as <-. exact H.
  - intros p k s0 _ H Hlim. destruct k as [k|].
    + rewrite (show_key_below_limit p k s0 Hlim). do 2 eexists.
      split; [reflexivity | exact H].
    + rewrite (show_auto_below_limit p s0 Hlim). do 2 eexists.
      split; [reflexivity | cbn [toastId]; lia].
  - apply Forall_forall. intros; exact I.
  - lia.
  - rewrite Hrun in Hrun2. injection Hrun2 as <-. exact Hle.
Qed.

(** Two [show] calls without a key never answer the same key, whatever
    calls are made in between. *)
Theorem generated_keys_never_repeat
  (p p' : ToastProps) (calls : list Call) (s s1 s2 s3 : Toaster)
  (k1 k2 : string) :
  show p None s = Ok (k1, s1) ->
  run calls s1 = Ok (tt, s2) ->
  show p' None s2 = Ok (k2, s3) ->
  k1 <> k2.
Proof.
  intros H1 Hrun H2.
  destruct (show_spec p None s) as (s0 & _ & Hs). rewrite Hs in H1.
  injection H1 as <- <-.
  destruct (show_spec p' None s2) as (s0' & _ & Hs'). rewrite Hs' in H2.
  injection H2 as <- _.
  apply run_toastId_mono in Hrun. cbn [toastId resolvedKey] in *.
  intros Heq. apply autoKey_inj in Heq. lia.
Qed.

Lemma generated_keys_never_repeat_witness :
  let p := mkToastProps "saved" None in
  let s := mkToaster (mkProps (Some 1%Q)) [] 0 [] in
  "toast-0" <> "toast-1".
Proof.
  intros p s.
  eapply (generated_keys_never_repeat p p [Clear] s); reflexivity.
Defined.

(** ** [show], [dismiss] and [clear] together *)

(** Below the limit, showing a toast under a key that is not in the list
    and then dismissing that key gives back the list; the one callback
    called is the toast's own, with the flag passed to [dismiss]. *)
Theorem dismiss_undoes_show
  (p : ToastProps) (k : string) (timeoutExpired : bool) (s : Toaster) :
  atLimit s = false ->
  ~ In k (map key (toasts s)) ->
  exists s1 s2,
    show p (Some k) s = Ok (k, s1) /\
    dismiss k timeoutExpired s1 = Ok (tt, s2) /\
    toasts s2 = toasts s /\
    invoked s2 = invoked s ++ invoke (onDismiss p) timeoutExpired [].
Proof.
  intros Hlim Hnew.
  rewrite (show_key_below_limit p k s Hlim).
  rewrite (proj2 (isNewToastKey_true k s) Hnew).
  eexists. eexists. split; [reflexivity|]. rewrite dismiss_eq.
  split; [reflexivity|]. cbn [toasts invoked filter].
  unfold lacksKey at 1, hasKey at 1. cbn [key]. rewrite String.eqb_refl.
  cbn [negb]. destruct (lacksKey_all k (toasts s) Hnew) as [-> ->].
  unfold dismissals. cbn [flat_map toastProps]. rewrite app_nil_r.
  split; reflexivity.
Qed.

Lemma dismiss_undoes_show_witness :
  let a := mkToast "a" (mkToastProps "saved" None) in
  let p := mkToastProps "sent" (Some 4%nat) in
  let s := mkToaster (mkProps (Some 3%Q)) [a] 0 [] in
  exists s1 s2,
    show p (Some "b") s = Ok ("b", s1) /\
    dismiss "b" true s1 = Ok (tt, s2) /\
    toasts s2 = toasts s /\
    invoked s2 = invoked s ++ invoke (onDismiss p) true [].
Proof.
  intros a p s. apply (dismiss_undoes_show p "b" true s).
  - reflexivity.
  - cbn. intros [H | []]. discriminate H.
Defined.

(** Dismissing a key a second time does nothing: no toast goes and no
    callback is called again, whatever flag the second call passes. *)
Theorem dismiss_twice
  (k : string) (timeoutExpired timeoutExpired' : bool) (s : Toaster) :
  exists s1,
    dismiss k timeoutExpired s = Ok (tt, s1) /\
    dismiss k timeoutExpired' s1 = Ok (tt, s1).
Proof.
  rewrite dismiss_eq. eexists. split; [reflexivity|].
  rewrite dismiss_eq. cbn [props toasts toastId invoked].
  destruct (lacksKey_all k (filter (lacksKey k) (toasts s))
              (lacksKey_gone k (toasts s))) as [-> ->].
  cbn. rewrite app_nil_r. reflexivity.
Qed.

(** [clear] empties the list and calls the [onDismiss] of every toast that
    has one, once each, front to back, always with [timeoutExpired = false];
    a second [clear] calls nothing more. *)
Theorem clear_dismisses_every_toast (s : Toaster) :
  exists s1,
    clear s = Ok (tt, s1) /\
    toasts s1 = [] /\
    invoked s1 =
      invoked s ++
      flat_map (fun t => match onDismiss (toastProps t) with
                         | Some f => [(f, false)]
                         | None => []
                         end) (toasts s) /\
    clear s1 = Ok (tt, s1).
Proof.
  rewrite clear_eq. eexists. split; [reflexivity|].
  split; [reflexivity|]. split.
  - reflexivity.
  - rewrite clear_eq. cbn. rewrite app_nil_r. reflexivity.
Qed.

Lemma dismiss_each_unique ts : forall s,
  toasts s = ts -> NoDup (map key ts) ->
  run (map (fun t => Dismiss (key t) false) ts) s
  = Ok (tt, mkToaster (props s) [] (toastId s)
              (invoked s ++ dismissals false ts)).
Proof.
  induction ts as [|t ts IH]; intros s Hts Hnd; cbn [map run].
  - cbn. rewrite app_nil_r. destruct s. cbn in Hts. subst. reflexivity.
  - inversion Hnd as [|? ? Hnotin Hrest]; subst.
    unfold bind. cbn [step]. rewrite dismiss_eq, Hts. cbn [filter].
    unfold lacksKey at 1, hasKey at 1. rewrite String.eqb_refl. cbn [negb].
    destruct (lacksKey_all (key t) ts Hnotin) as [-> ->].
    rewrite IH by (try reflexivity; exact Hrest).
    cbn [props toastId invoked]. unfold dismissals. cbn [flat_map].
    rewrite app_nil_r, <- app_assoc. reflexivity.
Qed.

(** With unique keys, [clear] does what dismissing the key of every toast,
    front to back with [timeoutExpired = false], does: the same list, the
    same calls in the same order. *)
Theorem clear_is_dismiss_of_every_key (s : Toaster) :
  uniqueKeys s ->
  run (map (fun t => Dismiss (key t) false) (toasts s)) s = clear s.
Proof.
  intros Hu. rewrite clear_eq. apply dismiss_each_unique; [reflexivity|exact Hu].
Qed.

Lemma clear_is_dismiss_of_every_key_witness :
  let a := mkToast "a" (mkToastProps "saved" (Some 1%nat)) in
  let b := mkToast "b" (mkToastProps "sent" (Some 2%nat)) in
  let s := mkToaster (mkProps None) [b; a] 0 [] in
  run [Dismiss "b" false; Dismiss "a" false] s = clear s.
Proof.
  intros a b s. apply (clear_is_dismiss_of_every_key s).
  unfold uniqueKeys. cbn. repeat constructor; cbn; intuition discriminate.
Defined.

(** ** Showing a key that is in a full list *)

Lemma evict_unique s rest oldest :
  uniqueKeys s -> toasts s = rest ++ [oldest] ->
  filter (lacksKey (key oldest)) (toasts s) = rest /\
  dismissals false (filter (hasKey (key oldest)) (toasts s))
  = invoke (onDismiss (toastProps oldest)) false [] /\
  ~ In (key oldest) (map key rest).
Proof.
  unfold uniqueKeys. intros Hu Hts. rewrite Hts in *.
  rewrite map_app in Hu. cbn [map] in Hu.
  apply NoDup_remove_2 in Hu. rewrite app_nil_r in Hu.
  rewrite !filter_app. cbn [filter]. unfold lacksKey at 2, hasKey at 2.
  rewrite String.eqb_refl. cbn [negb].
  destruct (lacksKey_all (key oldest) rest Hu) as [-> ->].
  unfold dismissals. cbn [flat_map app]. rewrite !app_nil_r.
  repeat split. exact Hu.
Qed.

(** With unique keys and the list at the limit, [show] under the key of
    the oldest toast is not an update: the oldest toast is dismissed (its
    [onDismiss] is called with [false]) and the new props go to the front as
    a new toast. *)
Theorem show_oldest_key_at_limit
  (p : ToastProps) (s : Toaster) (rest : list ToastOptions)
  (oldest : ToastOptions) :
  uniqueKeys s ->
  atLimit s = true ->
  toasts s = rest ++ [oldest] ->
  show p (Some (key oldest)) s =
  Ok (key oldest,
      mkToaster (props s) (mkToast (key oldest) p :: rest) (toastId s)
                (invoked s ++ invoke (onDismiss (toastProps oldest)) false [])).
Proof.
  intros Hu Hlim Hts.
  destruct (show_spec p (Some (key oldest)) s)
    as (s0 & [[Hlim0 _] | (_ & rest' & oldest' & Hts' & ->)] & Hshow);
    [congruence|].
  rewrite Hts in Hts'. apply app_inj_tail in Hts' as [<- <-].
  destruct (evict_unique s rest oldest Hu Hts) as (Hleft & Hcalls & Hgone).
  rewrite Hshow. cbn [resolvedKey toasts invoked].
  rewrite Hleft, Hcalls.
  assert (Hnew : isNewToastKey (key oldest)
                   (mkToaster (props s) rest (toastId s)
                      (invoked s ++
                       invoke (onDismiss (toastProps oldest)) false []))
                 = true)
    by (apply isNewToastKey_true; exact Hgone).
  rewrite Hnew. reflexivity.
Qed.

Lemma show_oldest_key_at_limit_witness :
  let a := mkToast "a" (mkToastProps "saving" (Some 1%nat)) in
  let b := mkToast "b" (mkToastProps "sent" None) in
  let p := mkToastProps "saved" None in
  let s := mkToaster (mkProps (Some 2%Q)) [b; a] 0 [] in
  show p (Some "a") s =
  Ok ("a", mkToaster (mkProps (Some 2%Q)) [mkToast "a" p; b] 0 [(1%nat, false)]).
Proof.
  intros a b p s.
  apply (show_oldest_key_at_limit p s [b] a).
  - unfold uniqueKeys. cbn. repeat constructor; cbn; intuition discriminate.
  - reflexivity.
  - reflexivity.
Defined.

(** With unique keys and the list at the limit, [show] under the key of a
    toast other than the oldest updates that toast in place and still
    dismisses the oldest: the list gets shorter by one. *)
Theorem show_other_key_at_limit
  (p : ToastProps) (k : string) (s : Toaster) (rest : list ToastOptions)
  (oldest : ToastOptions) :
  uniqueKeys s ->
  atLimit s = true ->
  toasts s = rest ++ [oldest] ->
  In k (map key rest) ->
  show p (Some k) s =
  Ok (k,
      mkToaster (props s) (map (replaceKey k p) rest) (toastId s)
                (invoked s ++ invoke (onDismiss (toastProps oldest)) false [])).
Proof.
  intros Hu Hlim Hts Hin.
  destruct (show_spec p (Some k) s)
    as (s0 & [[Hlim0 _] | (_ & rest' & oldest' & Hts' & ->)] & Hshow);
    [congruence|].
  rewrite Hts in Hts'. apply app_inj_tail in Hts' as [<- <-].
  destruct (evict_unique s rest oldest Hu Hts) as (Hleft & Hcalls & _).
  rewrite Hshow. cbn [resolvedKey toasts invoked].
  rewrite Hleft, Hcalls.
  assert (Hold : isNewToastKey k
                   (mkToaster (props s) rest (toastId s)
                      (invoked s ++
                       invoke (onDismiss (toastProps oldest)) false []))
                 = false).
  { destruct (isNewToastKey k (mkToaster (props s) rest (toastId s) _))
      eqn:Hnew; [|reflexivity].
    apply isNewToastKey_true in Hnew. cbn [toasts] in Hnew. contradiction. }
  rewrite Hold. reflexivity.
Qed.

Lemma show_other_key_at_limit_witness :
  let a := mkToast "a" (mkToastProps "saving" (Some 1%nat)) in
  let b := mkToast "b" (mkToastProps "sending" None) in
  let p := mkToastProps "sent" None in
  let s := mkToaster (mkProps (Some 2%Q)) [b; a] 0 [] in
  show p (Some "b") s =
  Ok ("b", mkToaster (mkProps (Some 2%Q)) [mkToast "b" p] 0 [(1%nat, false)]).
Proof.
  intros a b p s.
  apply (show_other_key_at_limit p "b" s [b] a).
  - unfold uniqueKeys. cbn. repeat constructor; cbn; intuition discriminate.
  - reflexivity.
  - reflexivity.
  - left. reflexivity.
Defined.

(** ** The counter *)

(** Every sequence of calls runs to the end in every state, and the counter
    then stands higher by the number of [show] calls without a key: keyed
    [show]s, [dismiss] and [clear] never move it.  The props stay as they
    are. *)
Theorem counter_counts_unkeyed_shows (calls : list Call) (s : Toaster) :
  exists s1,
    run calls s = Ok (tt, s1) /\
    toastId s1 = (toastId s + countUnkeyed calls)%nat /\
    props s1 = props s.
Proof.
  revert s. induction calls as [|c calls IH]; intros s.
  - exists s. cbn. split; [reflexivity|]. split; [lia | reflexivity].
  - assert (Hstep : exists s1,
              step c s = Ok (tt, s1) /\
              toastId s1 = (toastId s + countUnkeyed [c])%nat /\
              props s1 = props s).
    { destruct c as [p k | k timeoutExpired | |]; cbn [step].
      - destruct (show_spec p k s) as (s0 & _ & Hshow).
        unfold bind. rewrite Hshow. eexists. split; [reflexivity|].
        cbn [toastId props]. split; [|reflexivity].
        destruct k; cbn [countUnkeyed]; lia.
      - rewrite dismiss_eq. eexists. split; [reflexivity|].
        cbn. split; [lia | reflexivity].
      - rewrite clear_eq. eexists. split; [reflexivity|].
        cbn. split; [lia | reflexivity].
      - exists s. cbn. split; [reflexivity|]. split; [lia | reflexivity]. }
    destruct Hstep as (s1 & Hstep & Hid & Hprops).
    destruct (IH s1) as (s2 & Hrun & Hid2 & Hprops2).
    exists s2. cbn [run]. unfold bind. rewrite Hstep.
    split; [exact Hrun|]. split; [|congruence].
    rewrite Hid2, Hid.
    destruct c as [p [k|] | | |]; cbn [countUnkeyed]; lia.
Qed.

End ToasterFacts.

(** * Table utilities: proofs *)

Module TableFacts.
Import JsArray JsArrayFacts Table.

Lemma indexOf_found {A} (eqb : A -> A -> bool) (l : list A) (x : A) :
  (forall a b, eqb a b = true <-> a = b) ->
  (indexOf eqb l x >=? 0) = true <-> In x l.
Proof.
  intros Heqb. unfold indexOf.
  destruct (findIndex_cases (fun y => eqb y x) l)
    as [[Hall ->] | (pre & y & post & -> & _ & Hy & ->)].
  - split; [discriminate|]. intros Hin. exfalso.
    rewrite Forall_forall in Hall. specialize (Hall x Hin). cbn in Hall.
    assert (Hxx : eqb x x = true) by (apply Heqb; reflexivity). congruence.
  - split.
    + intros _. apply Heqb in Hy. subst y. apply in_or_app. right. left.
      reflexivity.
    + intros _. apply Z.geb_le. lia.
Qed.

(** [hasLoadingOption] answers [undefined] when there is no list, and
    otherwise a boolean that is [true] exactly when the option is an element
    of the list. *)
Theorem hasLoadingOption_is_membership
  (loadingOptions : option (list string)) (loadingOption : string) :
  match loadingOptions with
  | None => hasLoadingOption loadingOptions loadingOption = None
  | Some l =>
      exists b, hasLoadingOption loadingOptions loadingOption = Some b /\
                (b = true <-> In loadingOption l)
  end.
Proof.
  destruct loadingOptions as [l|]; [|reflexivity].
  eexists. split; [reflexivity|].
  apply indexOf_found. intros a b. apply String.eqb_eq.
Qed.

Section WithTypes.

Context {RegionCardinality Handler ClipboardGetter : Type}.
Variable cardinalityEqb : RegionCardinality -> RegionCardinality -> bool.
Variable FULL_TABLE : RegionCardinality.
Hypothesis cardinalityEqb_eq :
  forall a b, cardinalityEqb a b = true <-> a = b.

Implicit Types (props : @TableProps RegionCardinality ClipboardGetter)
               (hotkeysImpl : TableHotkeys Handler).

Lemma isSelectionModeEnabled_iff props mode modes :
  isSelectionModeEnabled cardinalityEqb props mode modes = true <->
  In mode (match modes with Some m => m | None => selectionModes props end) /\
  (exists n, numRows props = Some n /\ 0 < n) /\
  (0 < childrenCount props)%nat.
Proof.
  unfold isSelectionModeEnabled.
  rewrite !andb_true_iff, (indexOf_found _ _ _ cardinalityEqb_eq).
  rewrite Nat.ltb_lt.
  assert (Hpos : positive (numRows props) = true <->
                 exists n, numRows props = Some n /\ 0 < n).
  { unfold positive. destruct (numRows props) as [n|].
    - rewrite Z.ltb_lt. split; [intros H; exists n; auto|].
      intros (m & Hm & Hlt). congruence.
    - split; [discriminate | intros (m & Hm & _); discriminate]. }
  rewrite Hpos. tauto.
Qed.

(** A selection mode is enabled exactly when it is among the modes (the
    ones passed, or the table's own when none are passed), the table has a
    positive number of rows, and it has at least one column child; a table
    with [numRows] missing or with no children has no mode enabled. *)
Theorem selection_mode_enabled_iff props mode modes :
  isSelectionModeEnabled cardinalityEqb props mode modes = true <->
  In mode (match modes with Some m => m | None => selectionModes props end) /\
  (exists n, numRows props = Some n /\ 0 < n) /\
  (0 < childrenCount props)%nat.
Proof. apply isSelectionModeEnabled_iff. Qed.

Ltac hotkey_cases props :=
  unfold getHotkeysFromProps;
  destruct (getCellClipboardData props);
  destruct (isTrue (enableMultipleSelection props)
            && Nat.ltb 0 (length (selectionModes props)));
  destruct (enableFocusedCell props);
  destruct (isSelectionModeEnabled cardinalityEqb props FULL_TABLE None).

(** No two hotkeys of a table are bound to the same key combination,
    whatever the props. *)
Theorem hotkey_combos_unique props hotkeysImpl :
  NoDup (map combo (getHotkeysFromProps cardinalityEqb FULL_TABLE
                                        props hotkeysImpl)).
Proof.
  hotkey_cases props; cbn [app map combo];
    repeat (constructor; [cbn [In]; intuition discriminate|]);
    constructor.
Qed.

(** The select-all hotkey [mod+a] is registered exactly when the full-table
    selection mode is among the table's modes and the table has rows and
    columns; it is then bound to [handleSelectAllHotkey]. *)
Theorem select_all_hotkey_iff props hotkeysImpl :
  let hotkeys := getHotkeysFromProps cardinalityEqb FULL_TABLE
                                     props hotkeysImpl in
  (In "mod+a" (map combo hotkeys) <->
   In FULL_TABLE (selectionModes props) /\
   (exists n, numRows props = Some n /\ 0 < n) /\
   (0 < childrenCount props)%nat) /\
  (forall h, In h hotkeys -> combo h = "mod+a" ->
             onKeyDown h = handleSelectAllHotkey _ hotkeysImpl).
Proof.
  cbn zeta.
  rewrite <- (isSelectionModeEnabled_iff props FULL_TABLE None).
  hotkey_cases props; cbn [app map combo In]; split;
    try (split; [intros H; repeat destruct H as [H | H];
                 try discriminate H; try contradiction; reflexivity
                | try discriminate; intros _; tauto]);
    intros h Hh Hc;
    repeat destruct Hh as [Hh | Hh]; try contradiction;
    subst h; cbn [combo] in Hc; try discriminate Hc; reflexivity.
Qed.

(** The number of hotkeys: one for copy when [getCellClipboardData] is
    given, four for resizing when multiple selection is on and some mode is
    listed, eight for the focused cell when [enableFocusedCell] is given at
    all (also as [false]), and one for select-all when the full-table mode is
    enabled. *)
Theorem hotkey_count props hotkeysImpl :
  length (getHotkeysFromProps cardinalityEqb FULL_TABLE props hotkeysImpl)
  = ((match getCellClipboardData props with Some _ => 1 | None => 0 end)
     + (if isTrue (enableMultipleSelection props)
           && negb (Nat.eqb (length (selectionModes props)) 0)
        then 4 else 0)
     + (match enableFocusedCell props with Some _ => 8 | None => 0 end)
     + (if isSelectionModeEnabled cardinalityEqb props FULL_TABLE None
        then 1 else 0))%nat.
Proof.
  assert (Hsome : Nat.ltb 0 (length (selectionModes props))
                  = negb (Nat.eqb (length (selectionModes props)) 0)).
  { destruct (selectionModes props); reflexivity. }
  rewrite <- Hsome.
  hotkey_cases props; reflexivity.
Qed.

End WithTypes.

Lemma selection_mode_enabled_iff_witness :
  let props := mkTableProps (ClipboardGetter := unit)
                 2%nat (Some 5) [1%nat; 3%nat] None None None in
  isSelectionModeEnabled Nat.eqb props 3%nat None = true <->
  In 3%nat [1%nat; 3%nat] /\
  (exists n, Some 5 = Some n /\ 0 < n) /\ (0 < 2)%nat.
Proof.
  intros props.
  apply (selection_mode_enabled_iff Nat.eqb Nat.eqb_eq props 3%nat None).
Defined.

Lemma select_all_hotkey_iff_witness :
  let props := mkTableProps (ClipboardGetter := unit)
                 2%nat (Some 5) [3%nat] None (Some false) None in
  let impl := mkTableHotkeys nat 0%nat 1%nat 2%nat 3%nat 4%nat 5%nat 6%nat
                             7%nat 8%nat 9%nat 10%nat 11%nat 12%nat 13%nat in
  In "mod+a" (map combo (getHotkeysFromProps Nat.eqb 3%nat props impl)).
Proof.
  intros props impl.
  apply (select_all_hotkey_iff Nat.eqb 3%nat Nat.eqb_eq props impl).
  split; [left; reflexivity|]. split; [exists 5; split; [reflexivity|lia]|].
  cbn. lia.
Defined.

End TableFacts.

(** * Uniqueness of ids and keys *)

Module Uniqueness.
Import OverlayStack Toaster.

(** C2, as amended.  From the empty stack, when [openOverlay] is never given
    an id that is on the stack, no two entries of the stack have the same
    id; and on a newly constructed toaster, when every explicit key passed
    to [show] that has the shape of a generated key ([toast-<n>]) is one the
    toaster has generated before (so that a key [show] returned can be used
    to update its toast), every sequence of calls runs to the end and no two
    toasts of the list have the same key. *)
Theorem ids_and_keys_unique
  (overlayCalls : list OverlayStack.Call)
  (cfg : OverlayToasterProps) (s0 : Toaster)
  (toasterCalls : list Toaster.Call) :
  opensFresh overlayCalls emptyEnv = true ->
  construct cfg = Ok s0 ->
  explicitKeysIssued toasterCalls 0 ->
  uniqueIds (OverlayStack.run overlayCalls emptyEnv) /\
  exists s, Toaster.run toasterCalls s0 = Ok (tt, s) /\ uniqueKeys s.
Proof.
  intros Hopen Hnew Hkeys. split.
  - apply OverlayStackFacts.run_uniqueIds;
      [exact Hopen | apply OverlayStackFacts.emptyEnv_uniqueIds].
  - assert (Hs0 : s0 = mkToaster cfg [] 0 []).
    { unfold construct in Hnew. destruct (validateProps cfg); congruence. }
    subst s0.
    destruct (ToasterFacts.run_uniqueKeys toasterCalls
                (mkToaster cfg [] 0 []) Hkeys)
      as (s & Hrun & Hu & _).
    + constructor.
    + intros n [].
    + exists s. split; assumption.
Qed.

Lemma ids_and_keys_unique_witness :
  let dialog := mkOverlay "dialog" (mkOverlayProps true true) in
  let popover := mkOverlay "popover" (mkOverlayProps true false) in
  let p := mkToastProps "saved" None in
  uniqueIds
    (OverlayStack.run
       [OpenOverlay dialog; OpenOverlay popover; CloseOverlay dialog;
        OpenOverlay dialog] emptyEnv) /\
  exists s,
    Toaster.run [Show p None; Show p (Some "toast-0"); Show p (Some "a");
                 Show p None]
                (mkToaster (mkProps (Some 2%Q)) [] 0 []) = Ok (tt, s) /\
    uniqueKeys s.
Proof.
  intros dialog popover p.
  apply (ids_and_keys_unique
           [OpenOverlay dialog; OpenOverlay popover; CloseOverlay dialog;
            OpenOverlay dialog]
           (mkProps (Some 2%Q)) (mkToaster (mkProps (Some 2%Q)) [] 0 [])
           [Show p None; Show p (Some "toast-0"); Show p (Some "a");
            Show p None]).
  - reflexivity.
  - reflexivity.
  - cbn [explicitKeysIssued]. split; [|split; [|exact I]].
    + intros n H.
      assert (Hn : n = 0%nat)
        by (apply ToasterFacts.autoKey_inj; symmetry; exact H).
      lia.
    + intros n H. discriminate H.
Defined.

(** C2 fails as stated.  [openOverlay] pushes without looking, so opening
    one overlay twice puts its id on the stack twice; and [show] takes a
    generated key as new without looking, so it can repeat a key that was
    passed in explicitly before. *)
Lemma duplicate_ids_and_keys_reachable :
  let dialog := mkOverlay "dialog" (mkOverlayProps true true) in
  let p := mkToastProps "saved" None in
  ~ uniqueIds (OverlayStack.run [OpenOverlay dialog; OpenOverlay dialog]
                                emptyEnv) /\
  exists s0 s,
    construct (mkProps None) = Ok s0 /\
    Toaster.run [Show p (Some "toast-0"); Show p None] s0 = Ok (tt, s) /\
    ~ uniqueKeys s.
Proof.
  intros dialog p. split.
  - unfold uniqueIds. cbn. intros H. inversion H as [|? ? Hnotin _]; subst.
    apply Hnotin. left. reflexivity.
  - do 2 eexists. split; [reflexivity|]. split; [reflexivity|].
    unfold uniqueKeys. cbn. intros H. inversion H as [|? ? Hnotin _]; subst.
    apply Hnotin. left. reflexivity.
Qed.

End Uniqueness.
